(** * coin_maximiser: the recursive coin search of [main.cpp]

    A shallow embedding of [main.cpp]: the [Coin] class, the per-coin
    [hash], the cache fingerprint, [best_value] and the recursive search
    [find_best_combination], followed by the properties the specification
    states about them.

    Conventions.
    - [int] has 32 bits: an [int] is held as the integer it stands for, and
      the result of an [int] addition or subtraction that does not fit is
      wrapped modulo 2^32, as the machine arithmetic leaves it.
    - A [std::vector] is a [list], [push_back] appends at the end.
    - The [static std::map] of [find_best_combination] is a [gmap] threaded
      through the search as explicit state.
    - The recursion is bounded by a fuel argument; running out of fuel is
      the outcome [NoFuel], a thrown [std::out_of_range] the outcome
      [OutOfRange].
    - [unsigned long] has 64 bits and [double] is IEEE 754 binary64; a
      [double] out of the range of [unsigned long] converts to a value
      about which nothing is assumed.
    - [std::sort] is the insertion sort libstdc++ runs on ranges of at most
      16 elements; on a longer range the call is [Undefined]. *)

From Stdlib Require Import Ascii.
From stdpp Require Import base numbers option list gmap sorting strings pretty.

Local Open Scope Z_scope.

(** ** [int]

    The result of an [int] addition or subtraction is the exact result when
    it is an [int], and the [int] congruent to it modulo 2^32 otherwise. *)
Definition is_int (z : Z) : Prop := - 2 ^ 31 <= z < 2 ^ 31.

Definition int_wrap (z : Z) : Z := (z + 2 ^ 31) mod 2 ^ 32 - 2 ^ 31.

Definition int_add (a b : Z) : Z := int_wrap (a + b).
Definition int_sub (a b : Z) : Z := int_wrap (a - b).

(** ** Data model *)

(** [class Coin { int value; int weight; }]. *)
Record Coin : Type := mkCoin { value : Z; weight : Z }.

(** [typedef std::vector<Coin> Coins]. *)
Abbreviation Coins := (list Coin).

Global Instance Coin_eq_dec : EqDecision Coin.
Proof. solve_decision. Defined.

(** [Coin::operator int() const { return value; }]. *)
Definition to_int (coin : Coin) : Z := value coin.

(** The constants of [main]: the budget, the eight Australian coins as
    they are declared, and the null coin that seeds the search. *)
Definition maximum_weight : Z := 300.

Definition coin_options : Coins :=
  [ mkCoin 1 26; mkCoin 2 52; mkCoin 5 28; mkCoin 10 56;
    mkCoin 20 113; mkCoin 50 155; mkCoin 100 90; mkCoin 200 66 ].

Definition root : Coin := mkCoin 0 0.

(** [copy_combination]: rebuilds every coin of the vector. *)
Definition copy_combination (coins : Coins) : Coins :=
  map (fun coin => mkCoin (value coin) (weight coin)) coins.

(** ** Outcomes of a call *)

Inductive outcome (A : Type) : Type :=
  | Ret (a : A)        (* the call returns [a] *)
  | OutOfRange         (* [std::map::at] threw [std::out_of_range]; nothing catches it *)
  | Undefined          (* undefined behaviour: [front()] of an empty vector,
                          [std::sort] where libstdc++ leaves the insertion sort *)
  | NoFuel.            (* the recursion went deeper than the fuel *)
Arguments Ret {A} a.
Arguments OutOfRange {A}.
Arguments Undefined {A}.
Arguments NoFuel {A}.

Definition obind {A B : Type} (o : outcome A) (k : A -> outcome B) : outcome B :=
  match o with
  | Ret a => k a
  | OutOfRange => OutOfRange
  | Undefined => Undefined
  | NoFuel => NoFuel
  end.

Definition returns {A : Type} (o : outcome A) : Prop := exists a, o = Ret a.

(** ** [hash(Coin const&)] *)

(** [static const std::map<int, int> value_to_prime]. *)
Definition value_to_prime : gmap Z Z :=
  list_to_map
    [ (0, 0); (1, 2); (2, 3); (5, 5); (10, 7); (20, 11); (50, 13);
      (100, 17); (200, 19) ].

(** [return value_to_prime.at(coin.value);]: [at] throws on a missing key. *)
Definition hash (coin : Coin) : outcome Z :=
  match value_to_prime !! value coin with
  | Some prime => Ret prime
  | None => OutOfRange
  end.

(** The keys of [value_to_prime]. *)
Definition denominations : list Z := [0; 1; 2; 5; 10; 20; 50; 100; 200].

Definition supported (coin : Coin) : Prop := value coin ∈ denominations.

(** ** The arithmetic of the fingerprint

    [unsigned long h = hash(coin) + std::pow(remaining_weight, 23);]
    [std::pow] on two [int]s is [double pow(double, double)], so the sum is
    a [double] addition and [h] is that [double] converted to
    [unsigned long].  Every quantity involved is an integer, so a [double]
    is modelled by the integer it holds: an integer is a [double] when it
    fits 53 significant bits, and an operation rounds its exact result to
    the nearest such integer, ties to the even significand (IEEE 754
    binary64, whose exponent range these values never leave). *)

Definition round_magnitude (n : Z) : Z :=
  let e := Z.log2 n - 52 in
  if e <=? 0 then n
  else
    let q := Z.shiftr n e in
    let r := Z.land n (Z.ones e) in
    let half := Z.shiftl 1 (e - 1) in
    let q' := if r <? half then q
              else if half <? r then q + 1
              else if Z.even q then q else q + 1 in
    Z.shiftl q' e.

Definition round_double (z : Z) : Z :=
  if z <? 0 then - round_magnitude (- z) else round_magnitude z.

(** [std::pow(x, y)] for integers [x] and [y >= 0], taken as the correctly
    rounded power.  A libm may return the other neighbour where the exact
    power lies half way between two [double]s. *)
Definition std_pow (x y : Z) : Z := round_double (x ^ y).

(** [unsigned long] to [double], and the [double] addition. *)
Definition double_of_ulong (n : Z) : Z := round_double n.
Definition double_add (a b : Z) : Z := round_double (a + b).

(** ** [std::sort]

    Both calls of [std::sort] in the program hand it a comparator written
    with [>=], which is not a strict weak ordering: the standard leaves
    such a call undefined.  libstdc++ sorts a range of at most 16 elements
    ([_S_threshold]) with [__insertion_sort] alone, which makes no use of
    the comparator being a strict weak ordering and never leaves the range;
    that is what [std_sort] does on such a range.  On a longer range
    libstdc++ partitions first, with loops that rely on the ordering to
    stay inside the range; what the call then does depends on the data (it
    may sort, leave tied elements in another order, or read and write
    outside the range): there the call is [Undefined], and nothing is
    stated about it. *)

Section StdSort.

Context {A : Type} (comp : A -> A -> bool).

(** [__unguarded_linear_insert(last, comp)].  [val] is the element taken
    out of the range, [left] the elements before the hole read backwards
    (so its head is [*next]) and [right] the elements already moved one
    place up.  The loop has no bound check: it relies on some element of
    [left] stopping it. *)
Fixpoint unguarded_linear_insert (val : A) (left right : list A) : list A :=
  match left with
  | next :: left' =>
      if comp val next then unguarded_linear_insert val left' (next :: right)
      else rev_append left (val :: right)
  | [] => val :: right
  end.

(** One round of the [for] loop of [__insertion_sort]: [sorted] is the
    range before [i] and [x] is [*i]. *)
Definition insertion_step (sorted : list A) (x : A) : list A :=
  match sorted with
  | first :: _ =>
      if comp x first then x :: sorted   (* move_backward, then [*first = val] *)
      else unguarded_linear_insert x (rev sorted) []
  | [] => [x]
  end.

Definition insertion_sort (l : list A) : list A :=
  match l with
  | [] => []
  | x :: l' => fold_left insertion_step l' [x]
  end.

Definition std_sort (l : list A) : outcome (list A) :=
  if (length l <=? 16)%nat then Ret (insertion_sort l) else Undefined.

(** The element the loop leaves at the front of the range, when it started
    with [first] there and then took the elements of [l] in turn: an
    element replaces the front exactly when [comp] puts it before it. *)
Definition front_after (first : A) (l : list A) : A :=
  fold_left (fun front x => if comp x front then x else front) l first.

End StdSort.

(** ** [best_value] *)

(** The inner loop: [total_value += static_cast<int>(coin)], on an [int]. *)
Definition total_value (combination : Coins) : Z :=
  fold_left (fun total coin => int_add total (to_int coin)) combination 0.

(** The comparator handed to [std::sort]: [value1 >= value2]. *)
Definition value_ge (val_comb1 val_comb2 : Z * Coins) : bool :=
  val_comb2.1 <=? val_comb1.1.

(** [best_value]: pair every combination with its total value, sort the
    pairs, copy the combination of the front pair.  [front()] of an empty
    vector is undefined. *)
Definition best_value (combinations : list Coins) : outcome Coins :=
  let total_value_and_combination :=
    map (fun combination => (total_value combination, combination)) combinations in
  obind (std_sort value_ge total_value_and_combination)
    (fun total_value_and_combination =>
       match total_value_and_combination with
       | front :: _ => Ret (copy_combination front.2)
       | [] => Undefined
       end).

Arguments best_value : simpl never.

(** The end of [main]: [result->pop_back()] removes the root coin, then the
    two totals are summed, each in an [int], and printed. *)
Definition total_weight (combination : Coins) : Z :=
  fold_left (fun total coin => int_add total (weight coin)) combination 0.

Definition pop_back (coins : Coins) : Coins := removelast coins.

Definition printed_totals (result : Coins) : Z * Z :=
  (total_value (pop_back result), total_weight (pop_back result)).

(** ** [hash(Coins const&)]

    [unsigned long h = 0; for (coin : coins) h += hash(coin); return h;]
    The sum is an [unsigned long] sum, so it wraps at 2^64; a coin [hash]
    does not know ends the loop with its exception. *)
Fixpoint hash_coins_from (h : Z) (coins : Coins) : outcome Z :=
  match coins with
  | [] => Ret h
  | coin :: coins' =>
      obind (hash coin) (fun prime =>
        hash_coins_from ((h + prime) mod 2 ^ 64) coins')
  end.

Definition hash_coins (coins : Coins) : outcome Z := hash_coins_from 0 coins.

(** ** The streams: [operator<<] on a coin and on a vector of coins

    An [std::ostream] is modelled by the text written to it so far; an
    [int] is written in decimal, as [pretty] writes it. *)

(** [std::endl]: a line feed. *)
Definition endl : string := String "010"%char "".

(** [out << "Coin(v=" << coin.value << ", w=" << coin.weight << ")"]. *)
Definition print_coin (out : string) (coin : Coin) : string :=
  out +:+ "Coin(v=" +:+ pretty (value coin) +:+ ", w=" +:+ pretty (weight coin)
      +:+ ")".

(** [out << "["], then [out << coin << ", "] for every coin, then
    [out << "]"]. *)
Definition print_coins (out : string) (coins : Coins) : string :=
  fold_left (fun out coin => print_coin out coin +:+ ", ") coins (out +:+ "[")
  +:+ "]".

(** ** The value density of [main]

    [float(c.value) / float(c.weight)] in IEEE 754 binary32.  A finite
    [float] is a pair [(m, e)] standing for [m * 2^e]; converting an [int]
    and dividing round to 24 significant bits, ties to the even
    significand.  The quotient of two converted [int]s stays far inside
    the exponent range; the sign of a zero is not kept, the comparison
    does not see it. *)
Inductive float : Type :=
  | float_nan
  | float_inf (negative : bool)
  | float_finite (m e : Z).

(** [a / b] for [a, b > 0], rounded to 24 significant bits. *)
Definition round_ratio (a b : Z) : Z * Z :=
  let k := Z.log2 a - Z.log2 b in
  (* 2^(k-1) < a/b < 2^(k+1): the exponent of the leading bit is k or k-1 *)
  let k := if b * 2 ^ Z.max 0 k <=? a * 2 ^ Z.max 0 (- k) then k else k - 1 in
  let e := k - 23 in
  let num := a * 2 ^ Z.max 0 (- e) in
  let den := b * 2 ^ Z.max 0 e in
  let q := num / den in
  let r := num mod den in
  let m := if 2 * r <? den then q
           else if den <? 2 * r then q + 1
           else if Z.even q then q else q + 1 in
  (m, e).

Definition float_of_int (z : Z) : float :=
  if z =? 0 then float_finite 0 0
  else let '(m, e) := round_ratio (Z.abs z) 1 in float_finite (Z.sgn z * m) e.

Definition float_div (x y : float) : float :=
  match x, y with
  | float_nan, _ | _, float_nan => float_nan
  | float_inf _, float_inf _ => float_nan
  | float_inf negative, float_finite m2 _ => float_inf (xorb negative (m2 <? 0))
  | float_finite _ _, float_inf _ => float_finite 0 0
  | float_finite m1 e1, float_finite m2 e2 =>
      if m2 =? 0 then
        if m1 =? 0 then float_nan else float_inf (m1 <? 0)
      else if m1 =? 0 then float_finite 0 0
      else
        let d := e1 - e2 in
        let '(m, e) := round_ratio (Z.abs m1 * 2 ^ Z.max 0 d)
                                   (Z.abs m2 * 2 ^ Z.max 0 (- d)) in
        float_finite (Z.sgn m1 * Z.sgn m2 * m) e
  end.

(** [x >= y]: false as soon as one side is a NaN. *)
Definition float_ge (x y : float) : bool :=
  match x, y with
  | float_nan, _ | _, float_nan => false
  | float_inf negative, float_inf negative' => implb negative negative'
  | float_inf negative, float_finite _ _ => negb negative
  | float_finite _ _, float_inf negative => negative
  | float_finite m1 e1, float_finite m2 e2 =>
      let e := Z.min e1 e2 in
      m2 * 2 ^ (e2 - e) <=? m1 * 2 ^ (e1 - e)
  end.

(** The comparator [main] hands to [std::sort]. *)
Definition density_ge (c1 c2 : Coin) : bool :=
  let c1_value_density :=
    float_div (float_of_int (value c1)) (float_of_int (weight c1)) in
  let c2_value_density :=
    float_div (float_of_int (value c2)) (float_of_int (weight c2)) in
  float_ge c1_value_density c2_value_density.

(** A platform on which every out-of-range conversion leaves 0.  It
    instantiates the closed statements at the end; none of them depends on
    this choice. *)
Definition zero_on_overflow : Z -> Z := fun _ => 0.

Section Search.

(** The conversion of a [double] to [unsigned long] truncates, and is
    undefined when the truncated value is not an [unsigned long].  The
    value a platform then leaves in [h] is [ulong_overflow], about which
    nothing is assumed. *)
Variable ulong_overflow : Z -> Z.

Definition ulong_of_double (d : Z) : Z :=
  if (0 <=? d) && (d <? 2 ^ 64) then d else ulong_overflow d.

(** The right-hand side of line 134, before the conversion. *)
Definition fingerprint_double (prime remaining_weight : Z) : Z :=
  double_add (double_of_ulong prime) (std_pow remaining_weight 23).

Definition fingerprint (coin : Coin) (remaining_weight : Z) : outcome Z :=
  obind (hash coin) (fun prime =>
    Ret (ulong_of_double (fingerprint_double prime remaining_weight))).

(** ** The search with its cache *)

(** [static std::map<unsigned long, std::optional<Coins>> cache]. *)
Abbreviation Cache := (gmap Z (option Coins)).

(** A computation reads and may change the cache, and ends in an outcome. *)
Definition M (A : Type) : Type := Cache -> outcome A * Cache.

Definition ret {A : Type} (a : A) : M A := fun cache => (Ret a, cache).

Definition lift {A : Type} (o : outcome A) : M A := fun cache => (o, cache).

Definition bind {A B : Type} (m : M A) (k : A -> M B) : M B :=
  fun cache =>
    match m cache with
    | (Ret a, cache') => k a cache'
    | (OutOfRange, cache') => (OutOfRange, cache')
    | (Undefined, cache') => (Undefined, cache')
    | (NoFuel, cache') => (NoFuel, cache')
    end.

Notation "'let*' x ':=' m 'in' k" := (bind m (fun x => k))
  (at level 10, x name, m at level 100, k at level 200, only parsing).

(** [cache.find(h)]: [None] stands for [cache.end()]. *)
Definition cache_find (h : Z) : M (option (option Coins)) :=
  fun cache => (Ret (cache !! h), cache).

(** The [for (Coin const& next_coin : options)] loop of the inductive case:
    [search next_coin] is the recursive call, a result without a value is
    skipped, any other is copied to the end of [combinations]. *)
Fixpoint collect (search : Coin -> M (option Coins)) (options : Coins)
    (combinations : list Coins) : M (list Coins) :=
  match options with
  | [] => ret combinations
  | next_coin :: options' =>
      let* combination := search next_coin in
      match combination with
      | None => collect search options' combinations
      | Some c => collect search options' (combinations ++ [copy_combination c])
      end
  end.

Fixpoint find_best_combination (fuel : nat) (coin : Coin) (remaining_weight : Z)
    (options : Coins) : M (option Coins) :=
  match fuel with
  | O => lift NoFuel
  | S fuel' =>
      (* Search the cache for a result *)
      let* h := lift (fingerprint coin remaining_weight) in
      let* cache_value := cache_find h in
      match cache_value with
      | Some result => ret result
      | None =>
          (* Base case 1: Coin is over the remaining weight. *)
          if remaining_weight <? weight coin then ret None
          (* Base case 2: Coin matches the remaining weight perfectly. *)
          else if weight coin =? remaining_weight then ret (Some [coin])
          else
            (* Inductive case *)
            let* combinations :=
              collect (fun next_coin =>
                         find_best_combination fuel' next_coin
                           (int_sub remaining_weight (weight coin)) options)
                      options [] in
            if (length combinations =? 0)%nat then ret (Some [coin])
            else
              let* coins := lift (best_value combinations) in
              ret (Some (coins ++ [coin]))
      end
  end.

(** The call of [main], on the cache as the process starts it: empty. *)
Definition run (fuel : nat) (coin : Coin) (remaining_weight : Z)
    (options : Coins) : outcome (option Coins) :=
  (find_best_combination fuel coin remaining_weight options ∅).1.

(** ** The search against a cache that always misses

    The same function with the lookup never finding anything: the
    fingerprint is still evaluated (so [hash] can still throw), then the
    base cases and the inductive case run.  No state is left to thread. *)

Fixpoint collect_uncached (search : Coin -> outcome (option Coins))
    (options : Coins) (combinations : list Coins) : outcome (list Coins) :=
  match options with
  | [] => Ret combinations
  | next_coin :: options' =>
      obind (search next_coin) (fun combination =>
        match combination with
        | None => collect_uncached search options' combinations
        | Some c =>
            collect_uncached search options' (combinations ++ [copy_combination c])
        end)
  end.

Fixpoint find_best_combination_uncached (fuel : nat) (coin : Coin)
    (remaining_weight : Z) (options : Coins) : outcome (option Coins) :=
  match fuel with
  | O => NoFuel
  | S fuel' =>
      obind (fingerprint coin remaining_weight) (fun _ =>
        if remaining_weight <? weight coin then Ret None
        else if weight coin =? remaining_weight then Ret (Some [coin])
        else
          obind (collect_uncached
                   (fun next_coin =>
                      find_best_combination_uncached fuel' next_coin
                        (int_sub remaining_weight (weight coin)) options)
                   options [])
            (fun combinations =>
               if (length combinations =? 0)%nat then Ret (Some [coin])
               else obind (best_value combinations)
                      (fun coins => Ret (Some (coins ++ [coin])))))
  end.

(** The function with the cache code (lines 127 to 139) deleted: neither
    a fingerprint nor a lookup, only the base cases and the inductive
    case. *)
Fixpoint find_best_combination_without_cache (fuel : nat) (coin : Coin)
    (remaining_weight : Z) (options : Coins) : outcome (option Coins) :=
  match fuel with
  | O => NoFuel
  | S fuel' =>
      if remaining_weight <? weight coin then Ret None
      else if weight coin =? remaining_weight then Ret (Some [coin])
      else
        obind (collect_uncached
                 (fun next_coin =>
                    find_best_combination_without_cache fuel' next_coin
                      (int_sub remaining_weight (weight coin)) options)
                 options [])
          (fun combinations =>
             if (length combinations =? 0)%nat then Ret (Some [coin])
             else obind (best_value combinations)
                    (fun coins => Ret (Some (coins ++ [coin]))))
  end.

(** ** [main]

    [program] is the body of [main] with its two constants, the maximum
    weight and the coin options, as arguments; it yields the text written
    to [std::cout] and the exit status.  An exception of the search leaves
    [main] uncaught. *)
Definition program (fuel : nat) (maximum_weight : Z) (coin_options : Coins) :
    outcome (string * Z) :=
  (* Sort coins by value density. *)
  obind (std_sort density_ge coin_options) (fun coin_options =>
    let out := "Coins ordered by most valuable first:" +:+ endl in
    let out := print_coins out coin_options +:+ endl in
    (* Perform DFS style recursion. *)
    obind (run fuel root maximum_weight coin_options) (fun result =>
      match result with
      | Some result =>
          let out := out +:+ "Maximum possible result found!" +:+ endl in
          let out := print_coins out result +:+ endl in
          (* Remove root coin. *)
          let result := pop_back result in
          (* print the stats *)
          let out :=
            out +:+ "Total value: " +:+ pretty (total_value result) +:+ endl in
          let out :=
            out +:+ "Total weight: " +:+ pretty (total_weight result) +:+ endl in
          Ret (out, 0)
      | None => Ret (out +:+ "No result found :(" +:+ endl, 1)
      end)).

Definition main (fuel : nat) : outcome (string * Z) :=
  program fuel maximum_weight coin_options.

(** ** What the specification says, for comparison *)

(** The total value and the total weight of a combination as the
    specification means them: the sums of the values and of the weights of
    its coins, in the integers. *)
Definition sum_values (combination : Coins) : Z :=
  foldr (fun coin total => value coin + total) 0 combination.

Definition sum_weights (combination : Coins) : Z :=
  foldr (fun coin total => weight coin + total) 0 combination.

(** The three-case contract of the search, as the specification words it.
    [results] are the results of the recursive calls, one per catalog coin;
    the candidates are those that hold a combination. *)
#[local] Unset Elimination Schemes.
Inductive search_contract (catalog : Coins) : Coin -> Z -> option Coins -> Prop :=
  | contract_infeasible coin remaining :
      weight coin > remaining ->
      search_contract catalog coin remaining None
  | contract_perfect_fit coin remaining :
      weight coin = remaining ->
      search_contract catalog coin remaining (Some [coin])
  | contract_alone coin remaining results :
      weight coin < remaining ->
      Forall2 (fun c result =>
                 search_contract catalog c (remaining - weight coin) result)
              catalog results ->
      omap id results = [] ->
      search_contract catalog coin remaining (Some [coin])
  | contract_best coin remaining results best :
      weight coin < remaining ->
      Forall2 (fun c result =>
                 search_contract catalog c (remaining - weight coin) result)
              catalog results ->
      best ∈ omap id results ->
      (forall candidate, candidate ∈ omap id results ->
                         sum_values candidate <= sum_values best) ->
      search_contract catalog coin remaining (Some (best ++ [coin])).
#[local] Set Elimination Schemes.

(** [candidate] is one of the candidates of maximum total value. *)
Definition maximal (combinations : list Coins) (candidate : Coins) : Prop :=
  candidate ∈ combinations /\
  forall c, c ∈ combinations -> sum_values c <= sum_values candidate.

(** [candidate] is the first of the candidates of maximum total value, in
    the order of the list. *)
Definition first_maximal (combinations : list Coins) (candidate : Coins) : Prop :=
  exists i : nat,
    combinations !! i = Some candidate /\
    (forall c, c ∈ combinations -> sum_values c <= sum_values candidate) /\
    (forall (j : nat) c, (j < i)%nat -> combinations !! j = Some c ->
                         sum_values c < sum_values candidate).

(** The subproblems of a run: the call of [main], and every call the
    inductive case makes, which happens when neither base case applies. *)
Inductive arises (options : Coins) (budget : Z) : Coin -> Z -> Prop :=
  | arises_main : arises options budget root budget
  | arises_recursive coin remaining_weight next_coin :
      arises options budget coin remaining_weight ->
      weight coin < remaining_weight ->
      next_coin ∈ options ->
      arises options budget next_coin (int_sub remaining_weight (weight coin)).

(** The total value an outcome carries, when it is a returned result: the
    [int] total the program computes of it. *)
Definition value_of (o : outcome (option Coins)) : option (option Z) :=
  match o with
  | Ret result => Some (total_value <$> result)
  | _ => None
  end.

(** * Properties *)

(** ** [int] arithmetic *)

Lemma int_wrap_is_int (z : Z) : is_int (int_wrap z).
Proof.
  unfold is_int, int_wrap.
  pose proof (Z.mod_pos_bound (z + 2 ^ 31) (2 ^ 32) ltac:(lia)). lia.
Qed.

Lemma int_wrap_small (z : Z) : is_int z -> int_wrap z = z.
Proof.
  unfold is_int, int_wrap. intros H. rewrite Z.mod_small by lia. lia.
Qed.

(** Wrapping never raises a number that is not negative. *)
Lemma int_wrap_le (z : Z) : 0 <= z -> int_wrap z <= z.
Proof.
  intros Hz. destruct (Z_lt_dec z (2 ^ 31)) as [Hlt|Hge].
  - rewrite int_wrap_small by (unfold is_int; lia). lia.
  - pose proof (int_wrap_is_int z) as [_ H]. lia.
Qed.

Lemma int_wrap_add_l (a b : Z) : int_wrap (int_wrap a + b) = int_wrap (a + b).
Proof.
  unfold int_wrap. f_equal.
  replace ((a + 2 ^ 31) mod 2 ^ 32 - 2 ^ 31 + b + 2 ^ 31)
    with ((a + 2 ^ 31) mod 2 ^ 32 + b) by lia.
  rewrite Z.add_mod_idemp_l by lia. f_equal. lia.
Qed.

(** ** Coins and totals *)

Lemma copy_combination_id (coins : Coins) : copy_combination coins = coins.
Proof.
  unfold copy_combination. induction coins as [|[v w] coins IH]; simpl; congruence.
Qed.

Lemma total_value_app (l : Coins) (coin : Coin) :
  total_value (l ++ [coin]) = int_add (total_value l) (value coin).
Proof. unfold total_value. rewrite fold_left_app. reflexivity. Qed.

Lemma total_weight_app (l : Coins) (coin : Coin) :
  total_weight (l ++ [coin]) = int_add (total_weight l) (weight coin).
Proof. unfold total_weight. rewrite fold_left_app. reflexivity. Qed.

Lemma sum_values_app (l1 l2 : Coins) :
  sum_values (l1 ++ l2) = sum_values l1 + sum_values l2.
Proof. induction l1 as [|c l1 IH]; simpl; [reflexivity|]. rewrite IH. lia. Qed.

Lemma sum_weights_app (l1 l2 : Coins) :
  sum_weights (l1 ++ l2) = sum_weights l1 + sum_weights l2.
Proof. induction l1 as [|c l1 IH]; simpl; [reflexivity|]. rewrite IH. lia. Qed.

(** The [int] totals are the sums, wrapped: they are the sums when these
    fit an [int]. *)
Lemma total_value_wrap (l : Coins) : total_value l = int_wrap (sum_values l).
Proof.
  induction l as [|c l IH] using rev_ind; [reflexivity|].
  rewrite total_value_app, sum_values_app, IH. unfold int_add.
  rewrite int_wrap_add_l. simpl. f_equal. lia.
Qed.

Lemma total_weight_wrap (l : Coins) : total_weight l = int_wrap (sum_weights l).
Proof.
  induction l as [|c l IH] using rev_ind; [reflexivity|].
  rewrite total_weight_app, sum_weights_app, IH. unfold int_add.
  rewrite int_wrap_add_l. simpl. f_equal. lia.
Qed.

Lemma total_value_exact (l : Coins) :
  is_int (sum_values l) -> total_value l = sum_values l.
Proof. intros H. rewrite total_value_wrap. apply int_wrap_small, H. Qed.

Lemma total_weight_exact (l : Coins) :
  is_int (sum_weights l) -> total_weight l = sum_weights l.
Proof. intros H. rewrite total_weight_wrap. apply int_wrap_small, H. Qed.

(** ** [hash] *)

Lemma hash_supported (coin : Coin) : supported coin <-> returns (hash coin).
Proof.
  unfold supported, denominations, hash, returns.
  rewrite !elem_of_cons, elem_of_nil.
  split.
  - intros H.
    repeat (destruct H as [-> | H]; [eexists; vm_compute; reflexivity|]).
    destruct H.
  - intros [p Hp].
    destruct (value_to_prime !! value coin) as [q|] eqn:E; [|discriminate].
    unfold value_to_prime in E. simpl in E.
    repeat (apply lookup_insert_Some in E as [[<- _] | [_ E]]; [tauto|]).
    rewrite lookup_empty in E. discriminate.
Qed.

Lemma hash_unsupported (coin : Coin) : ~ supported coin <-> hash coin = OutOfRange.
Proof.
  rewrite hash_supported. unfold returns, hash.
  destruct (value_to_prime !! value coin); split; try done.
  - intros H. destruct H. eauto.
  - intros _ [a Ha]. discriminate.
Qed.

Lemma supported_value_bounds (coin : Coin) : supported coin -> 0 <= value coin <= 200.
Proof.
  unfold supported, denominations. intros H.
  repeat (apply elem_of_cons in H as [->|H]; [lia|]). inversion H.
Qed.

(** A selection of catalog coins of known denominations and positive
    weights: its weight bounds its length, hence its value. *)
Lemma selection_bounds (options l : Coins) :
  Forall supported options ->
  Forall (fun c => 0 < weight c) options ->
  Forall (fun c => c ∈ options) l ->
  0 <= sum_values l <= 200 * sum_weights l /\
  0 <= sum_weights l /\ (sum_weights l <= 0 -> l = []).
Proof.
  intros Hsup Hpos. rewrite Forall_forall in Hsup, Hpos.
  induction 1 as [|c l Hc _ (IHv & IHw & _)]; simpl.
  - split; [lia|]. split; [lia|auto].
  - specialize (Hpos c Hc). apply Hsup, supported_value_bounds in Hc.
    simpl in Hpos. split; [lia|]. split; [lia|]. intros H. lia.
Qed.

(** ** The cache is only ever read *)

Lemma bind_cache {A B : Type} (m : M A) (k : A -> M B) (cache : Cache) :
  (m cache).2 = cache ->
  (forall a, (k a cache).2 = cache) ->
  (bind m k cache).2 = cache.
Proof.
  unfold bind. intros Hm Hk.
  destruct (m cache) as [[a| | |] cache'] eqn:E; simpl in Hm; subst; auto.
Qed.

Lemma collect_cache (search : Coin -> M (option Coins)) (options : Coins) :
  (forall c cache, (search c cache).2 = cache) ->
  forall combinations cache,
    (collect search options combinations cache).2 = cache.
Proof.
  intros Hsearch. induction options as [|next_coin options IH];
    intros combinations cache; simpl; [reflexivity|].
  apply bind_cache; [apply Hsearch|].
  intros [c|]; apply IH.
Qed.

Lemma find_best_combination_cache (fuel : nat) :
  forall coin remaining_weight options cache,
    (find_best_combination fuel coin remaining_weight options cache).2 = cache.
Proof.
  induction fuel as [|fuel IH]; intros coin r options cache; [reflexivity|].
  simpl. apply bind_cache; [reflexivity|]. intros h.
  apply bind_cache; [reflexivity|]. intros [result|]; [reflexivity|].
  destruct (r <? weight coin); [reflexivity|].
  destruct (weight coin =? r); [reflexivity|].
  apply bind_cache.
  - apply collect_cache. intros c cache'. apply IH.
  - intros combinations. destruct (length combinations =? 0)%nat; [reflexivity|].
    apply bind_cache; [reflexivity|]. reflexivity.
Qed.

(** From the empty cache every lookup misses, so the call is the uncached
    one. *)
Lemma collect_empty (search : Coin -> M (option Coins))
    (search' : Coin -> outcome (option Coins)) (options : Coins) :
  (forall c, search c ∅ = (search' c, ∅)) ->
  forall combinations,
    collect search options combinations ∅
    = (collect_uncached search' options combinations, ∅).
Proof.
  intros Hsearch. induction options as [|next_coin options IH];
    intros combinations; simpl; [reflexivity|].
  unfold bind. rewrite Hsearch.
  destruct (search' next_coin) as [[c|]| | |]; simpl; auto.
Qed.

Lemma find_best_combination_empty (fuel : nat) :
  forall coin remaining_weight options,
    find_best_combination fuel coin remaining_weight options ∅
    = (find_best_combination_uncached fuel coin remaining_weight options, ∅).
Proof.
  induction fuel as [|fuel IH]; intros coin r options; [reflexivity|].
  simpl. unfold bind at 1, lift at 1.
  destruct (fingerprint coin r) as [h| | |]; simpl; try reflexivity.
  unfold bind at 1, cache_find. rewrite lookup_empty.
  destruct (r <? weight coin); [reflexivity|].
  destruct (weight coin =? r); [reflexivity|].
  unfold bind at 1.
  rewrite (collect_empty _ (fun next_coin =>
             find_best_combination_uncached fuel next_coin
               (int_sub r (weight coin)) options))
    by (intros c; apply IH).
  destruct (collect_uncached _ options []) as [combinations| | |]; simpl;
    try reflexivity.
  destruct (length combinations =? 0)%nat; [reflexivity|].
  unfold bind, lift. destruct (best_value combinations); reflexivity.
Qed.

Lemma run_uncached (fuel : nat) (coin : Coin) (remaining_weight : Z) (options : Coins) :
  run fuel coin remaining_weight options
  = find_best_combination_uncached fuel coin remaining_weight options.
Proof. unfold run. rewrite find_best_combination_empty. reflexivity. Qed.

(** ** [std::sort] and [best_value] *)

Section StdSortFacts.

Context {A : Type} (comp : A -> A -> bool).

Lemma std_sort_short (l : list A) :
  (length l <= 16)%nat -> std_sort comp l = Ret (insertion_sort comp l).
Proof.
  intros H. unfold std_sort. apply Nat.leb_le in H. rewrite H. reflexivity.
Qed.

Lemma std_sort_Ret (l sorted : list A) :
  std_sort comp l = Ret sorted ->
  (length l <= 16)%nat /\ sorted = insertion_sort comp l.
Proof.
  unfold std_sort. destruct (length l <=? 16)%nat eqn:E; [|discriminate].
  intros [= <-]. apply Nat.leb_le in E. auto.
Qed.

Lemma unguarded_linear_insert_stops (val first : A) (left right : list A) :
  comp val first = false ->
  exists tail,
    unguarded_linear_insert comp val (left ++ [first]) right = first :: tail.
Proof.
  intros Hstop. revert right.
  induction left as [|next left IH]; intros right; simpl.
  - rewrite Hstop. simpl. eauto.
  - destruct (comp val next); [apply IH|].
    rewrite rev_append_rev. simpl. rewrite rev_app_distr. simpl. eauto.
Qed.

Lemma insertion_step_front (first x : A) (sorted : list A) :
  exists tail,
    insertion_step comp (first :: sorted) x
    = (if comp x first then x else first) :: tail.
Proof.
  unfold insertion_step. destruct (comp x first) eqn:E; [eauto|].
  simpl rev. apply unguarded_linear_insert_stops. exact E.
Qed.

Lemma insertion_loop_front (l : list A) :
  forall first sorted,
  exists tail,
    fold_left (insertion_step comp) l (first :: sorted)
    = front_after comp first l :: tail.
Proof.
  unfold front_after.
  induction l as [|x l IH]; intros first sorted; cbn [fold_left]; [eauto|].
  destruct (insertion_step_front first x sorted) as [tail ->]. apply IH.
Qed.

Lemma insertion_sort_front (x : A) (l : list A) :
  exists tail, insertion_sort comp (x :: l) = front_after comp x l :: tail.
Proof. unfold insertion_sort. apply insertion_loop_front. Qed.

(** Whatever the comparator, the range is only rearranged. *)
Lemma unguarded_linear_insert_permutation (val : A) (left right : list A) :
  unguarded_linear_insert comp val left right ≡ₚ val :: rev left ++ right.
Proof.
  revert right. induction left as [|next left IH]; intros right; simpl.
  - reflexivity.
  - destruct (comp val next).
    + rewrite IH. rewrite <- app_assoc. simpl.
      apply perm_skip. apply Permutation_app_head. reflexivity.
    + rewrite rev_append_rev. simpl. rewrite <- !app_assoc. simpl.
      rewrite <- (Permutation_middle (rev left) (val :: right) next).
      rewrite <- (Permutation_middle (rev left) right val).
      rewrite <- (Permutation_middle (rev left) right next).
      apply perm_swap.
Qed.

Lemma insertion_step_permutation (sorted : list A) (x : A) :
  insertion_step comp sorted x ≡ₚ x :: sorted.
Proof.
  destruct sorted as [|first sorted]; [reflexivity|].
  unfold insertion_step. destruct (comp x first); [reflexivity|].
  rewrite unguarded_linear_insert_permutation, app_nil_r, rev_involutive.
  reflexivity.
Qed.

Lemma insertion_sort_permutation (l : list A) : insertion_sort comp l ≡ₚ l.
Proof.
  unfold insertion_sort. destruct l as [|x l]; [reflexivity|].
  assert (forall sorted, fold_left (insertion_step comp) l sorted ≡ₚ sorted ++ l)
    as H.
  { induction l as [|y l IH]; intros sorted; simpl.
    - rewrite app_nil_r. reflexivity.
    - rewrite IH, insertion_step_permutation.
      rewrite (Permutation_middle sorted l y). reflexivity. }
  rewrite H. reflexivity.
Qed.

Lemma front_after_snoc (first x : A) (l : list A) :
  front_after comp first (l ++ [x])
  = (if comp x (front_after comp first l) then x else front_after comp first l).
Proof. unfold front_after. rewrite fold_left_app. reflexivity. Qed.

End StdSortFacts.

Lemma front_after_pairs (c : Coins) (l : list Coins) :
  front_after value_ge (total_value c, c)
    (map (fun combination => (total_value combination, combination)) l)
  = (total_value (front_after (fun x y => total_value y <=? total_value x) c l),
     front_after (fun x y => total_value y <=? total_value x) c l).
Proof.
  unfold front_after. revert c.
  induction l as [|x l IH]; intros c; simpl; [reflexivity|].
  unfold value_ge at 2. simpl.
  destruct (total_value c <=? total_value x); apply IH.
Qed.

(** On at most 16 candidates [best_value] returns the front the insertion
    loop leaves. *)
Lemma best_value_front (c : Coins) (l : list Coins) :
  (length (c :: l) <= 16)%nat ->
  best_value (c :: l)
  = Ret (front_after (fun x y => total_value y <=? total_value x) c l).
Proof.
  intros Hlen. unfold best_value.
  rewrite std_sort_short by (rewrite length_map; exact Hlen).
  simpl map.
  destruct (insertion_sort_front value_ge (total_value c, c)
              (map (fun combination => (total_value combination, combination)) l))
    as [tail ->].
  rewrite front_after_pairs. simpl. rewrite copy_combination_id. reflexivity.
Qed.

(** That front is a candidate, and no candidate has a larger [int] total. *)
Lemma front_after_maximal (c : Coins) (l : list Coins) :
  front_after (fun x y => total_value y <=? total_value x) c l ∈ c :: l /\
  forall x, x ∈ c :: l ->
    total_value x
    <= total_value (front_after (fun x y => total_value y <=? total_value x) c l).
Proof.
  induction l as [|x l IH] using rev_ind.
  - split; [left|]. intros x Hx. apply list_elem_of_singleton in Hx. subst.
    simpl. lia.
  - rewrite front_after_snoc.
    set (best := front_after _ c l) in *.
    destruct IH as [Hin Hmax]. rewrite app_comm_cons.
    destruct (total_value best <=? total_value x) eqn:E.
    + apply Z.leb_le in E. split.
      * apply elem_of_app. right. left.
      * intros y Hy. apply elem_of_app in Hy as [Hy|Hy].
        -- specialize (Hmax y Hy). lia.
        -- apply list_elem_of_singleton in Hy. subst. lia.
    + apply Z.leb_gt in E. split.
      * apply elem_of_app. left. exact Hin.
      * intros y Hy. apply elem_of_app in Hy as [Hy|Hy].
        -- apply Hmax, Hy.
        -- apply list_elem_of_singleton in Hy. subst. lia.
Qed.

Lemma best_value_maximal (combinations : list Coins) :
  combinations <> [] ->
  (length combinations <= 16)%nat ->
  exists best,
    best_value combinations = Ret best /\ best ∈ combinations /\
    forall c, c ∈ combinations -> total_value c <= total_value best.
Proof.
  destruct combinations as [|c l]; [congruence|]. intros _ Hlen.
  eexists. split; [apply best_value_front, Hlen|apply front_after_maximal].
Qed.

Lemma best_value_Ret (combinations : list Coins) (best : Coins) :
  best_value combinations = Ret best ->
  combinations <> [] /\ (length combinations <= 16)%nat /\
  best ∈ combinations /\
  forall c, c ∈ combinations -> total_value c <= total_value best.
Proof.
  intros Hbest.
  assert (length combinations <= 16)%nat as Hlen.
  { unfold best_value in Hbest.
    destruct (std_sort value_ge _) as [sorted| | |] eqn:E; try discriminate.
    apply std_sort_Ret in E as [E _]. rewrite length_map in E. exact E. }
  assert (combinations <> []) as Hne.
  { intros ->. discriminate. }
  split; [exact Hne|]. split; [exact Hlen|].
  destruct (best_value_maximal combinations Hne Hlen) as (best' & Hbest' & H).
  rewrite Hbest in Hbest'. injection Hbest' as <-. exact H.
Qed.

(** [best_value] neither throws nor recurses. *)
Lemma best_value_outcome (combinations : list Coins) :
  best_value combinations <> NoFuel /\ best_value combinations <> OutOfRange.
Proof.
  unfold best_value, std_sort.
  destruct (length _ <=? 16)%nat; simpl; [|split; discriminate].
  destruct (insertion_sort value_ge _); split; discriminate.
Qed.

(** ** The loop and one level of the recursion *)

Lemma returns_Ret {A : Type} (a : A) : returns (Ret a).
Proof. exists a. reflexivity. Qed.

Lemma fingerprint_returns (coin : Coin) (remaining_weight : Z) :
  returns (fingerprint coin remaining_weight) <-> supported coin.
Proof.
  rewrite hash_supported. unfold fingerprint, returns.
  destruct (hash coin) as [prime| | |]; simpl; split; intros [x Hx]; eauto;
    discriminate.
Qed.

Lemma collect_uncached_Ret (search : Coin -> outcome (option Coins))
    (options : Coins) :
  forall combinations l,
    collect_uncached search options combinations = Ret l <->
    exists results,
      Forall2 (fun c result => search c = Ret result) options results /\
      l = combinations ++ omap id results.
Proof.
  induction options as [|next_coin options IH]; intros combinations l; simpl.
  - split.
    + intros [= <-]. exists []. split; [constructor|]. simpl.
      rewrite app_nil_r. reflexivity.
    + intros (results & HF & ->). inversion HF; subst. simpl.
      rewrite app_nil_r. reflexivity.
  - split.
    + destruct (search next_coin) as [[c|]| | |] eqn:E; simpl; try discriminate.
      * intros H. apply IH in H as (results & HF & ->).
        exists (Some c :: results). split; [constructor; assumption|].
        simpl. rewrite copy_combination_id, <- app_assoc. reflexivity.
      * intros H. apply IH in H as (results & HF & ->).
        exists (None :: results). split; [constructor; assumption|]. reflexivity.
    + intros (results & HF & ->). inversion HF as [|? result ? results' Hc HF']; subst.
      rewrite Hc. simpl. destruct result as [c|]; simpl; apply IH.
      * exists results'. split; [assumption|].
        rewrite copy_combination_id, <- app_assoc. reflexivity.
      * exists results'. split; [assumption|reflexivity].
Qed.

Lemma collect_uncached_fails (search : Coin -> outcome (option Coins))
    (options : Coins) (c : Coin) (combinations : list Coins) :
  c ∈ options -> ~ returns (search c) ->
  ~ returns (collect_uncached search options combinations).
Proof.
  intros Hin Hfail [l Hl]. apply collect_uncached_Ret in Hl as (results & HF & _).
  apply list_elem_of_lookup in Hin as [i Hi].
  eapply Forall2_lookup_l in HF as (result & _ & Hres); [|exact Hi].
  apply Hfail. exists result. exact Hres.
Qed.

Lemma Forall2_Ret_unique {B C : Type} (f : B -> outcome C) (l : list B)
    (results1 results2 : list C) :
  Forall2 (fun c result => f c = Ret result) l results1 ->
  Forall2 (fun c result => f c = Ret result) l results2 ->
  results1 = results2.
Proof.
  intros H1. revert results2.
  induction H1 as [|c result l results1 Hc H1 IH]; intros results2 H2;
    inversion H2 as [|? result' ? results2' Hc' H2']; subst; [reflexivity|].
  f_equal; [congruence|apply IH; assumption].
Qed.

Lemma Forall2_impl_Forall {B C : Type} (P : B -> Prop) (R R' : B -> C -> Prop)
    (l : list B) (k : list C) :
  Forall P l -> Forall2 R l k ->
  (forall x y, P x -> R x y -> R' x y) ->
  Forall2 R' l k.
Proof.
  intros HP HF HR. induction HF as [|x y l k Hxy _ IH]; [constructor|].
  apply Forall_cons in HP as [Hx HP]. constructor; auto.
Qed.

(** The loop keeps at most one candidate per catalog coin. *)
Lemma candidates_length {B C : Type} (R : B -> option C -> Prop) (l : list B)
    (results : list (option C)) :
  Forall2 R l results -> (length (omap id results) <= length l)%nat.
Proof.
  induction 1 as [|c [x|] l results _ _ IH]; simpl; [lia|..];
    change (list_omap _ _ id results) with (omap id results); lia.
Qed.

(** What a call that returns has done. *)
Lemma uncached_step (fuel : nat) (coin : Coin) (r : Z) (options : Coins)
    (res : option Coins) :
  find_best_combination_uncached (S fuel) coin r options = Ret res <->
  supported coin /\
  ((r < weight coin /\ res = None) \/
   (weight coin = r /\ res = Some [coin]) \/
   (weight coin < r /\
    exists results,
      Forall2 (fun c result =>
                 find_best_combination_uncached fuel c (int_sub r (weight coin))
                   options
                 = Ret result) options results /\
      ((omap id results = [] /\ res = Some [coin]) \/
       (omap id results <> [] /\
        exists best, best_value (omap id results) = Ret best /\
                     res = Some (best ++ [coin]))))).
Proof.
  rewrite <- (fingerprint_returns coin r). simpl.
  destruct (fingerprint coin r) as [h| | |]; simpl;
    try (split; [discriminate | intros [[a Ha] _]; discriminate]).
  destruct (r <? weight coin) eqn:E1.
  { apply Z.ltb_lt in E1. split.
    - intros [= <-]. split; [apply returns_Ret|]. auto.
    - intros [_ [[_ ->]|[[? _]|[? _]]]]; [reflexivity|lia|lia]. }
  apply Z.ltb_ge in E1.
  destruct (weight coin =? r) eqn:E2.
  { apply Z.eqb_eq in E2. split.
    - intros [= <-]. split; [apply returns_Ret|]. auto.
    - intros [_ [[? _]|[[_ ->]|[? _]]]]; [lia|reflexivity|lia]. }
  apply Z.eqb_neq in E2.
  destruct (collect_uncached _ options []) as [combinations| | |] eqn:E3; simpl.
  - apply collect_uncached_Ret in E3 as (results & HF & ->). simpl.
    destruct (omap id results) as [|c l] eqn:E4; simpl.
    + split.
      * intros [= <-]. split; [apply returns_Ret|]. right. right.
        split; [lia|]. exists results. rewrite E4. auto.
      * intros [_ [[? _]|[[? _]|[_ (results' & HF' & H)]]]]; [lia|lia|].
        assert (results' = results) as ->
          by exact (Forall2_Ret_unique
                      (fun c => find_best_combination_uncached fuel c
                                  (int_sub r (weight coin)) options) _ _ _ HF' HF).
        rewrite E4 in H. destruct H as [[_ ->]|[? _]]; [reflexivity|congruence].
    + split.
      * destruct (best_value (c :: l)) as [best| | |] eqn:E5; simpl; try discriminate.
        intros [= <-]. split; [apply returns_Ret|]. right. right.
        split; [lia|]. exists results. rewrite E4. split; [assumption|].
        right. split; [discriminate|]. eauto.
      * intros [_ [[? _]|[[? _]|[_ (results' & HF' & H)]]]]; [lia|lia|].
        assert (results' = results) as ->
          by exact (Forall2_Ret_unique
                      (fun c => find_best_combination_uncached fuel c
                                  (int_sub r (weight coin)) options) _ _ _ HF' HF).
        rewrite E4 in H. destruct H as [[? _]|[_ (best & -> & ->)]]; [discriminate|].
        reflexivity.
  - split; [discriminate|].
    intros [_ [[? _]|[[? _]|[_ (results & HF & _)]]]]; [lia|lia|].
    assert (collect_uncached
              (fun next_coin =>
                 find_best_combination_uncached fuel next_coin
                   (int_sub r (weight coin)) options)
              options [] = Ret ([] ++ omap id results)) as H
      by (apply collect_uncached_Ret; eauto).
    rewrite H in E3. discriminate.
  - split; [discriminate|].
    intros [_ [[? _]|[[? _]|[_ (results & HF & _)]]]]; [lia|lia|].
    assert (collect_uncached
              (fun next_coin =>
                 find_best_combination_uncached fuel next_coin
                   (int_sub r (weight coin)) options)
              options [] = Ret ([] ++ omap id results)) as H
      by (apply collect_uncached_Ret; eauto).
    rewrite H in E3. discriminate.
  - split; [discriminate|].
    intros [_ [[? _]|[[? _]|[_ (results & HF & _)]]]]; [lia|lia|].
    assert (collect_uncached
              (fun next_coin =>
                 find_best_combination_uncached fuel next_coin
                   (int_sub r (weight coin)) options)
              options [] = Ret ([] ++ omap id results)) as H
      by (apply collect_uncached_Ret; eauto).
    rewrite H in E3. discriminate.
Qed.

Lemma candidates_spec (search : Coin -> outcome (option Coins)) (options : Coins)
    (results : list (option Coins)) :
  Forall2 (fun c result => search c = Ret result) options results ->
  forall combination,
    combination ∈ omap id results <->
    exists c, c ∈ options /\ search c = Ret (Some combination).
Proof.
  intros HF combination. rewrite list_elem_of_omap. split.
  - intros (result & Hin & Hsome). simpl in Hsome. subst result.
    apply list_elem_of_lookup in Hin as [i Hi].
    eapply Forall2_lookup_r in HF as (c & Hc & Hres); [|exact Hi].
    exists c. split; [|exact Hres]. eapply list_elem_of_lookup_2. exact Hc.
  - intros (c & Hin & Hres).
    apply list_elem_of_lookup in Hin as [i Hi].
    eapply Forall2_lookup_l in HF as (result & Hr & Hres'); [|exact Hi].
    exists result. split; [eapply list_elem_of_lookup_2; exact Hr|].
    simpl. congruence.
Qed.

Lemma Forall_returns (search : Coin -> outcome (option Coins)) (options : Coins) :
  Forall (fun c => returns (search c)) options ->
  exists results, Forall2 (fun c result => search c = Ret result) options results.
Proof.
  induction 1 as [|c options [result Hc] _ [results IH]].
  - exists []. constructor.
  - exists (result :: results). constructor; assumption.
Qed.

(** ** Fuel: more is harmless, and the remaining weight bounds the need *)

Lemma uncached_fuel_S (options : Coins) (fuel : nat) :
  forall coin r res,
    find_best_combination_uncached fuel coin r options = Ret res ->
    find_best_combination_uncached (S fuel) coin r options = Ret res.
Proof.
  induction fuel as [|fuel IH]; intros coin r res H; [discriminate|].
  apply uncached_step in H as [Hs H]. apply uncached_step. split; [exact Hs|].
  destruct H as [H|[H|(Hlt & results & HF & H)]]; [auto|auto|].
  right. right. split; [exact Hlt|]. exists results. split; [|exact H].
  eapply Forall2_impl; [exact HF|]. intros c result. apply IH.
Qed.

Lemma uncached_fuel_le (options : Coins) (fuel fuel' : nat) coin r res :
  (fuel <= fuel')%nat ->
  find_best_combination_uncached fuel coin r options = Ret res ->
  find_best_combination_uncached fuel' coin r options = Ret res.
Proof.
  induction 1 as [|fuel' _ IH]; [auto|]. intros H. apply uncached_fuel_S, IH, H.
Qed.

(** With positive catalog weights the remaining weight drops at every
    level, and with at most 16 catalog coins [best_value] sorts at most 16
    candidates. *)
Lemma uncached_terminates (options : Coins) :
  Forall supported options ->
  Forall (fun c => 0 < weight c) options ->
  (length options <= 16)%nat ->
  forall (n : nat) coin r,
    supported coin ->
    (Z.to_nat (r - weight coin) <= n)%nat ->
    returns (find_best_combination_uncached (S n) coin r options).
Proof.
  intros Hsup Hpos Hlen.
  induction n as [|n IH]; intros coin r Hs Hn.
  - destruct (Z.lt_trichotomy r (weight coin)) as [Hlt|[Heq|Hgt]]; [| |lia].
    + exists None. apply uncached_step. auto.
    + exists (Some [coin]). apply uncached_step. auto.
  - destruct (Z.lt_trichotomy r (weight coin)) as [Hlt|[Heq|Hgt]].
    + exists None. apply uncached_step. auto.
    + exists (Some [coin]). apply uncached_step. auto.
    + pose proof (int_wrap_le (r - weight coin) ltac:(lia)) as Hwrap.
      fold (int_sub r (weight coin)) in Hwrap.
      destruct (Forall_returns
                  (fun c => find_best_combination_uncached (S n) c
                              (int_sub r (weight coin)) options) options)
        as [results HF].
      { rewrite Forall_forall. intros c Hc.
        rewrite Forall_forall in Hsup, Hpos.
        specialize (Hsup c Hc). specialize (Hpos c Hc). simpl in Hpos.
        apply IH; [exact Hsup|lia]. }
      pose proof (candidates_length _ _ _ HF) as Hcand.
      destruct (omap id results) as [|c l] eqn:E.
      * exists (Some [coin]). apply uncached_step. split; [exact Hs|].
        right. right. split; [lia|]. exists results. rewrite E. auto.
      * destruct (best_value_maximal (c :: l)) as (best & Hbest & _);
          [discriminate|lia|].
        exists (Some (best ++ [coin])). apply uncached_step. split; [exact Hs|].
        right. right. split; [lia|]. exists results. rewrite E.
        split; [exact HF|]. right. split; [discriminate|]. eauto.
Qed.

(** Enough fuel gives one result, the same for every larger fuel. *)
Lemma uncached_result (options : Coins) coin r :
  supported coin ->
  Forall supported options ->
  Forall (fun c => 0 < weight c) options ->
  (length options <= 16)%nat ->
  exists res,
    forall fuel, (Z.to_nat (r - weight coin) < fuel)%nat ->
      find_best_combination_uncached fuel coin r options = Ret res.
Proof.
  intros Hs Hsup Hpos Hlen.
  destruct (uncached_terminates options Hsup Hpos Hlen
              (Z.to_nat (r - weight coin)) coin r Hs) as [res Hres]; [lia|].
  exists res. intros fuel Hfuel. eapply uncached_fuel_le; [|exact Hres]. lia.
Qed.

(** A coin [hash] does not know stops every search that reaches it. *)
Lemma unsupported_never_returns (options : Coins) (c : Coin) coin r :
  c ∈ options -> ~ supported c -> weight coin < r ->
  forall fuel, ~ returns (find_best_combination_uncached fuel coin r options).
Proof.
  intros Hin Hc Hlt [|fuel] [res H]; [discriminate|].
  apply uncached_step in H as [_ [[? _]|[[? _]|(_ & results & HF & _)]]];
    [lia|lia|].
  apply list_elem_of_lookup in Hin as [i Hi].
  eapply Forall2_lookup_l in HF as (result & _ & Hres); [|exact Hi].
  destruct fuel as [|fuel]; [discriminate|].
  apply uncached_step in Hres as [Hs _]. contradiction.
Qed.

(** ** What a returned result is *)

(** Its weight is within the remaining weight, whatever the catalog. *)
Lemma uncached_weight (options : Coins) (fuel : nat) :
  forall coin r combination,
    find_best_combination_uncached fuel coin r options = Ret (Some combination) ->
    sum_weights combination <= r.
Proof.
  induction fuel as [|fuel IH]; intros coin r combination H; [discriminate|].
  apply uncached_step in H as [_ [[_ H]|[[Heq H]|(Hlt & results & HF & H)]]].
  - discriminate.
  - injection H as ->. simpl. lia.
  - destruct H as [[_ H]|(Hne & best & Hbest & H)]; injection H as ->.
    + simpl. lia.
    + apply best_value_Ret in Hbest as (_ & _ & Hin & _).
      eapply candidates_spec in Hin as (c & _ & Hc); [|exact HF].
      apply IH in Hc. rewrite sum_weights_app. simpl.
      pose proof (int_wrap_le (r - weight coin) ltac:(lia)) as Hwrap.
      fold (int_sub r (weight coin)) in Hwrap. lia.
Qed.

Lemma uncached_None (options : Coins) (fuel : nat) coin r res :
  find_best_combination_uncached fuel coin r options = Ret res ->
  (res = None <-> weight coin > r).
Proof.
  destruct fuel as [|fuel]; [discriminate|]. intros H.
  apply uncached_step in H as [_ [[Hlt ->]|[[Heq ->]|(Hlt & results & HF & H)]]].
  - split; [lia|reflexivity].
  - split; [discriminate|lia].
  - destruct H as [[_ ->]|(_ & best & _ & ->)]; (split; [discriminate|lia]).
Qed.

(** It is made of catalog coins, followed by the coin of the call. *)
Lemma uncached_catalog_coins (options : Coins) (fuel : nat) :
  forall coin r combination,
    find_best_combination_uncached fuel coin r options = Ret (Some combination) ->
    exists coins,
      combination = coins ++ [coin] /\ Forall (fun c => c ∈ options) coins.
Proof.
  induction fuel as [|fuel IH]; intros coin r combination H; [discriminate|].
  apply uncached_step in H as [_ [[_ H]|[[_ H]|(_ & results & HF & H)]]].
  - discriminate.
  - injection H as ->. exists []. split; [reflexivity|constructor].
  - destruct H as [[_ H]|(Hne & best & Hbest & H)]; injection H as ->.
    + exists []. split; [reflexivity|constructor].
    + exists best. split; [reflexivity|].
      apply best_value_Ret in Hbest as (_ & _ & Hin & _).
      eapply candidates_spec in Hin as (c & Hc & Hres); [|exact HF].
      apply IH in Hres as (coins & -> & Hcoins).
      apply Forall_app. split; [exact Hcoins|]. constructor; [exact Hc|constructor].
Qed.

(** So what [main] pops is the root coin, and the totals it prints are
    those of the returned combination. *)
Lemma printed_totals_of_run (options : Coins) (fuel : nat) budget combination :
  run fuel root budget options = Ret (Some combination) ->
  printed_totals combination = (total_value combination, total_weight combination).
Proof.
  rewrite run_uncached. intros H.
  apply uncached_catalog_coins in H as (coins & -> & _).
  unfold printed_totals, pop_back. rewrite removelast_last.
  rewrite total_value_app, total_weight_app. unfold int_add. simpl.
  rewrite !Z.add_0_r.
  rewrite (int_wrap_small (total_value coins))
    by (rewrite total_value_wrap; apply int_wrap_is_int).
  rewrite (int_wrap_small (total_weight coins))
    by (rewrite total_weight_wrap; apply int_wrap_is_int).
  reflexivity.
Qed.

(** The combination a catalog coin's call returns on a catalog of known
    denominations and positive weights: its value is at most 200 for each
    unit of weight, and its [int] total is its total value when that bound
    fits an [int]. *)
Lemma returned_total_exact (options : Coins) :
  Forall supported options ->
  Forall (fun c => 0 < weight c) options ->
  forall fuel c r combination,
    c ∈ options ->
    200 * r < 2 ^ 31 ->
    find_best_combination_uncached fuel c r options = Ret (Some combination) ->
    Forall (fun c => c ∈ options) combination /\
    0 <= sum_values combination <= 200 * r /\
    0 <= sum_weights combination <= r /\
    total_value combination = sum_values combination /\
    total_weight combination = sum_weights combination.
Proof.
  intros Hsup Hpos fuel c r combination Hc Hr H.
  apply uncached_weight in H as Hw.
  apply uncached_catalog_coins in H as (coins & -> & Hcoins).
  assert (Forall (fun c => c ∈ options) (coins ++ [c])) as Hall
    by (apply Forall_app; split; [exact Hcoins|repeat constructor; exact Hc]).
  destruct (selection_bounds options _ Hsup Hpos Hall) as (Hv & Hnonneg & _).
  split; [exact Hall|]. split; [lia|]. split; [lia|].
  split; [apply total_value_exact|apply total_weight_exact]; unfold is_int; lia.
Qed.

Lemma uncached_contract (options : Coins) :
  Forall supported options ->
  Forall (fun c => 0 < weight c) options ->
  forall fuel coin r res,
    200 * (r - weight coin) < 2 ^ 31 ->
    find_best_combination_uncached fuel coin r options = Ret res ->
    search_contract options coin r res.
Proof.
  intros Hsup Hpos.
  induction fuel as [|fuel IH]; intros coin r res Hr H; [discriminate|].
  apply uncached_step in H as [_ [[Hlt ->]|[[Heq ->]|(Hlt & results & HF & H)]]].
  - apply contract_infeasible. lia.
  - apply contract_perfect_fit. exact Heq.
  - assert (int_sub r (weight coin) = r - weight coin) as Hsub
      by (apply int_wrap_small; unfold is_int; lia).
    rewrite Hsub in HF.
    assert (Forall2 (fun c result =>
                       search_contract options c (r - weight coin) result)
                    options results) as HF'.
    { eapply Forall2_impl_Forall; [exact Hpos|exact HF|].
      intros c result Hc Hres. simpl in Hc.
      eapply IH; [lia|exact Hres]. }
    destruct H as [[Hnil ->]|(Hne & best & Hbest & ->)].
    + eapply contract_alone; eauto.
    + apply best_value_Ret in Hbest as (_ & _ & Hin & Hmax).
      assert (forall candidate, candidate ∈ omap id results ->
                total_value candidate = sum_values candidate) as Hexact.
      { intros candidate Hcand.
        eapply candidates_spec in Hcand as (c & Hc & Hres); [|exact HF].
        eapply (returned_total_exact options Hsup Hpos); [exact Hc| |exact Hres].
        lia. }
      eapply contract_best; eauto.
      intros candidate Hcand. specialize (Hmax candidate Hcand).
      rewrite (Hexact _ Hcand), (Hexact _ Hin) in Hmax. exact Hmax.
Qed.

(** No selection of catalog coins within the remaining weight is worth
    more than what the search returns. *)
Lemma uncached_optimal (options : Coins) :
  Forall supported options ->
  Forall (fun c => 0 < weight c) options ->
  forall fuel coin r combination,
    200 * (r - weight coin) < 2 ^ 31 ->
    find_best_combination_uncached fuel coin r options = Ret (Some combination) ->
    forall l,
      Forall (fun c => c ∈ options) l ->
      sum_weights l <= r - weight coin ->
      sum_values l + value coin <= sum_values combination.
Proof.
  intros Hsup Hpos.
  induction fuel as [|fuel IH]; intros coin r combination Hr H l Hl Hfit;
    [discriminate|].
  destruct (selection_bounds options l Hsup Hpos Hl) as (Hval & Hnonneg & Hempty).
  apply uncached_step in H as [_ [[_ H]|[[Heq H]|(Hlt & results & HF & H)]]].
  - discriminate.
  - injection H as ->. rewrite Hempty by lia. simpl. lia.
  - assert (int_sub r (weight coin) = r - weight coin) as Hsub
      by (apply int_wrap_small; unfold is_int; lia).
    rewrite Hsub in HF.
    assert (forall candidate, candidate ∈ omap id results ->
              0 <= sum_values candidate /\
              total_value candidate = sum_values candidate) as Hexact.
    { intros candidate Hcand.
      eapply candidates_spec in Hcand as (c & Hc & Hres); [|exact HF].
      eapply (returned_total_exact options Hsup Hpos) in Hres
        as (_ & Hv & _ & He & _); [|exact Hc|lia].
      split; [lia|exact He]. }
    destruct l as [|c l'].
    + destruct H as [[_ H]|(Hne & best & Hbest & H)]; injection H as ->;
        [simpl; lia|].
      apply best_value_Ret in Hbest as (_ & _ & Hin & _).
      apply Hexact in Hin as [Hin _].
      rewrite sum_values_app. simpl. lia.
    + apply Forall_cons in Hl as [Hc Hl'].
      simpl in Hfit, Hnonneg.
      destruct (selection_bounds options l' Hsup Hpos Hl') as (_ & Hnonneg' & _).
      assert (0 < weight c) as Hcpos
        by (rewrite Forall_forall in Hpos; apply (Hpos c Hc)).
      apply list_elem_of_lookup in Hc as Hi. destruct Hi as [i Hi].
      eapply Forall2_lookup_l in HF as Hres; [|exact Hi].
      destruct Hres as (result & Hri & Hres).
      apply uncached_None in Hres as Hnone.
      destruct result as [candidate|];
        [|destruct Hnone as [Hnone _]; specialize (Hnone eq_refl); lia].
      assert (candidate ∈ omap id results) as Hcand.
      { apply list_elem_of_omap. exists (Some candidate).
        split; [eapply list_elem_of_lookup_2; exact Hri|reflexivity]. }
      destruct H as [[Hnil _]|(Hne & best & Hbest & H)];
        [rewrite Hnil in Hcand; inversion Hcand|].
      injection H as ->.
      apply best_value_Ret in Hbest as (_ & _ & Hin & Hmax).
      specialize (Hmax candidate Hcand).
      destruct (Hexact _ Hcand) as [_ E1]. destruct (Hexact _ Hin) as [_ E2].
      rewrite E1, E2 in Hmax.
      pose proof (IH c (r - weight coin) candidate ltac:(lia) Hres
                     l' Hl' ltac:(lia)) as Hl'opt.
      rewrite sum_values_app. simpl. lia.
Qed.

(** ** The order of the catalog *)

(** On catalogs of at most 16 coins only which coins the catalog holds
    matters to the [int] total of a result, and to whether there is one. *)
Lemma uncached_same_coins (fuel : nat) :
  forall options options' : Coins,
    (forall c, c ∈ options <-> c ∈ options') ->
    (length options <= 16)%nat ->
    (length options' <= 16)%nat ->
    forall coin r res,
      find_best_combination_uncached fuel coin r options = Ret res ->
      exists res',
        find_best_combination_uncached fuel coin r options' = Ret res' /\
        total_value <$> res = total_value <$> res'.
Proof.
  induction fuel as [|fuel IH];
    intros options options' Hsame Hlen Hlen' coin r res H; [discriminate|].
  apply uncached_step in H as [Hs [[Hlt ->]|[[Heq ->]|(Hlt & results & HF & H)]]].
  - exists None. split; [|reflexivity]. apply uncached_step. auto.
  - exists (Some [coin]). split; [|reflexivity]. apply uncached_step. auto.
  - set (search := fun c => find_best_combination_uncached fuel c
                              (int_sub r (weight coin)) options) in *.
    set (search' := fun c => find_best_combination_uncached fuel c
                               (int_sub r (weight coin)) options').
    assert (forall c result, c ∈ options -> search c = Ret result ->
              exists result', search' c = Ret result' /\
                              total_value <$> result = total_value <$> result')
      as Hforth by (intros c result _; apply IH; assumption).
    assert (forall c result', c ∈ options' -> search' c = Ret result' ->
              exists result, search c = Ret result /\
                             total_value <$> result' = total_value <$> result)
      as Hback.
    { intros c result' _. apply IH; [|assumption..].
      intros c'. symmetry. apply Hsame. }
    destruct (Forall_returns search' options') as [results' HF'].
    { rewrite Forall_forall. intros c Hc. apply Hsame in Hc as Hc0.
      apply list_elem_of_lookup in Hc0 as [i Hi].
      eapply Forall2_lookup_l in HF as (result & _ & Hres); [|exact Hi].
      apply Hforth in Hres as (result' & Hres' & _);
        [|eapply list_elem_of_lookup_2; exact Hi].
      exists result'. exact Hres'. }
    pose proof (candidates_length _ _ _ HF') as Hcand'.
    (* every candidate on one side has one of the same value on the other *)
    assert (forall x, x ∈ omap id results ->
              exists y, y ∈ omap id results' /\ total_value x = total_value y)
      as Hx.
    { intros x Hin. eapply candidates_spec in Hin as (c & Hc & Hres); [|exact HF].
      apply Hforth in Hres as ([y|] & Hres' & Hv); [|discriminate|exact Hc].
      injection Hv as Hv. exists y. split; [|exact Hv].
      eapply candidates_spec; [exact HF'|]. exists c. split; [|exact Hres'].
      apply Hsame, Hc. }
    assert (forall y, y ∈ omap id results' ->
              exists x, x ∈ omap id results /\ total_value y = total_value x)
      as Hy.
    { intros y Hin. eapply candidates_spec in Hin as (c & Hc & Hres'); [|exact HF'].
      apply Hback in Hres' as ([x|] & Hres & Hv); [|discriminate|exact Hc].
      injection Hv as Hv. exists x. split; [|exact Hv].
      eapply candidates_spec; [exact HF|]. exists c. split; [|exact Hres].
      apply Hsame, Hc. }
    destruct (omap id results') as [|y0 l'] eqn:E'.
    + (* no candidate on either side *)
      assert (omap id results = []) as E.
      { destruct (omap id results) as [|x0 l]; [reflexivity|].
        destruct (Hx x0) as (y & Hin & _); [left|]. inversion Hin. }
      destruct H as [[_ ->]|(Hne & _)]; [|congruence].
      exists (Some [coin]). split; [|reflexivity].
      apply uncached_step. split; [exact Hs|]. right. right. split; [exact Hlt|].
      exists results'. rewrite E'. auto.
    + destruct H as [[Hnil ->]|(Hne & best & Hbest & ->)].
      { rewrite Hnil in Hy. destruct (Hy y0) as (x & Hin & _); [left|].
        inversion Hin. }
      destruct (best_value_maximal (y0 :: l')) as (best' & Hbest' & Hin' & Hmax');
        [discriminate|lia|].
      apply best_value_Ret in Hbest as (_ & _ & Hin & Hmax).
      exists (Some (best' ++ [coin])). split.
      * apply uncached_step. split; [exact Hs|]. right. right.
        split; [exact Hlt|]. exists results'. rewrite E'.
        split; [exact HF'|]. right. split; [discriminate|]. eauto.
      * simpl. f_equal. rewrite !total_value_app. f_equal.
        destruct (Hx best Hin) as (y & Hyin & Hyv).
        destruct (Hy best' Hin') as (x & Hxin & Hxv).
        specialize (Hmax x Hxin). specialize (Hmax' y Hyin). lia.
Qed.

Lemma uncached_value_same_coins (options options' : Coins) fuel coin r :
  (forall c, c ∈ options <-> c ∈ options') ->
  (length options <= 16)%nat ->
  (length options' <= 16)%nat ->
  value_of (find_best_combination_uncached fuel coin r options)
  = value_of (find_best_combination_uncached fuel coin r options').
Proof.
  intros Hsame Hlen Hlen'.
  destruct (find_best_combination_uncached fuel coin r options) as [res| | |] eqn:E;
    destruct (find_best_combination_uncached fuel coin r options')
      as [res'| | |] eqn:E'; simpl; try reflexivity;
    try (eapply uncached_same_coins in E as (x & Hx & Hv);
           [|exact Hsame|exact Hlen|exact Hlen'];
         rewrite E' in Hx; first [discriminate | injection Hx as <-; congruence]);
    try (eapply uncached_same_coins in E' as (x & Hx & Hv);
           [|intros c; symmetry; apply Hsame|exact Hlen'|exact Hlen];
         rewrite E in Hx; discriminate).
Qed.

(** Rearranging the catalog does not change the subproblems of a run. *)
Lemma arises_same_coins (options options' : Coins) (budget : Z) coin r :
  (forall c, c ∈ options <-> c ∈ options') ->
  arises options budget coin r -> arises options' budget coin r.
Proof.
  intros Hsame. induction 1 as [|coin r next_coin _ IH Hlt Hin].
  - apply arises_main.
  - apply arises_recursive; [exact IH|exact Hlt|apply Hsame, Hin].
Qed.

(** ** Deleting the cache code *)

Lemma collect_uncached_ext (search search' : Coin -> outcome (option Coins))
    (options : Coins) :
  (forall c, c ∈ options -> search c = search' c) ->
  forall combinations,
    collect_uncached search options combinations
    = collect_uncached search' options combinations.
Proof.
  induction options as [|next_coin options IH]; intros Hext combinations;
    simpl; [reflexivity|].
  rewrite <- (Hext next_coin) by left.
  destruct (search next_coin) as [[c|]| | |]; simpl; try reflexivity;
    apply IH; intros c' Hc'; apply Hext; right; exact Hc'.
Qed.

(** A result the search returns is the result of the function without the
    cache code. *)
Lemma without_cache_result (options : Coins) (fuel : nat) :
  forall coin r res,
    find_best_combination_uncached fuel coin r options = Ret res ->
    find_best_combination_without_cache fuel coin r options = Ret res.
Proof.
  induction fuel as [|fuel IH]; intros coin r res H; [discriminate|].
  simpl in *. destruct (fingerprint coin r) as [h| | |]; try discriminate.
  simpl in H. destruct (r <? weight coin); [exact H|].
  destruct (weight coin =? r); [exact H|].
  destruct (collect_uncached _ options []) as [combinations| | |] eqn:E;
    try discriminate.
  apply collect_uncached_Ret in E as (results & HF & ->).
  assert (collect_uncached
            (fun next_coin =>
               find_best_combination_without_cache fuel next_coin
                 (int_sub r (weight coin)) options) options []
          = Ret ([] ++ omap id results)) as ->; [|exact H].
  apply collect_uncached_Ret. exists results. split; [|reflexivity].
  eapply Forall2_impl; [exact HF|]. intros c result. apply IH.
Qed.

(** On the denominations [hash] knows the two functions are one. *)
Lemma without_cache_supported (options : Coins) (fuel : nat) :
  Forall supported options ->
  forall coin r,
    supported coin ->
    find_best_combination_uncached fuel coin r options
    = find_best_combination_without_cache fuel coin r options.
Proof.
  intros Hsup. induction fuel as [|fuel IH]; intros coin r Hs; [reflexivity|].
  simpl. apply (fingerprint_returns coin r) in Hs as [h ->]. simpl.
  destruct (r <? weight coin); [reflexivity|].
  destruct (weight coin =? r); [reflexivity|].
  erewrite collect_uncached_ext; [reflexivity|].
  intros c Hc. apply IH. rewrite Forall_forall in Hsup. apply Hsup, Hc.
Qed.

(** ** [best_value] and the total values *)

(** On at most 16 candidates whose total values fit an [int], the
    candidate returned has the largest total value. *)
Lemma best_value_sums (combinations : list Coins) :
  combinations <> [] ->
  (length combinations <= 16)%nat ->
  Forall (fun c => is_int (sum_values c)) combinations ->
  exists best,
    best_value combinations = Ret best /\
    best ∈ combinations /\
    forall c, c ∈ combinations -> sum_values c <= sum_values best.
Proof.
  intros Hne Hlen Hfit. rewrite Forall_forall in Hfit.
  destruct (best_value_maximal combinations Hne Hlen) as (best & Hbest & Hin & Hmax).
  exists best. split; [exact Hbest|]. split; [exact Hin|].
  intros c Hc. specialize (Hmax c Hc).
  rewrite !total_value_exact in Hmax by (apply Hfit; assumption). exact Hmax.
Qed.

(** * The claims of the specification *)

(** C1, as amended.  For every coin of a known denomination, every
    catalog of at most 16 coins of known denominations and positive
    weights, and every remaining weight that leaves the catalog coins less
    than 2^31 / 200 (so that neither the remaining weight nor a total
    value leaves the range of [int]), the search returns (for every fuel
    above the remaining weight) a result that follows the three-case
    contract: no combination when the coin is heavier than the remaining
    weight, the coin alone on a perfect fit, and otherwise the coin alone
    when no recursive call yields a combination, else a candidate of
    maximum total value with the coin appended at the end. *)
Theorem search_three_case_contract (options : Coins) (coin : Coin)
    (remaining_weight : Z) :
  supported coin ->
  Forall supported options ->
  Forall (fun c => 0 < weight c) options ->
  (length options <= 16)%nat ->
  200 * (remaining_weight - weight coin) < 2 ^ 31 ->
  exists result,
    search_contract options coin remaining_weight result /\
    forall fuel, (Z.to_nat (remaining_weight - weight coin) < fuel)%nat ->
      find_best_combination fuel coin remaining_weight options ∅
      = (Ret result, ∅).
Proof.
  intros Hs Hsup Hpos Hlen Hr.
  destruct (uncached_result options coin remaining_weight Hs Hsup Hpos Hlen)
    as [result Hresult].
  exists result. split.
  - eapply (uncached_contract options Hsup Hpos); [exact Hr|].
    apply (Hresult (S (Z.to_nat (remaining_weight - weight coin)))). lia.
  - intros fuel Hfuel. rewrite find_best_combination_empty.
    rewrite (Hresult fuel Hfuel). reflexivity.
Qed.

(** C2, as amended.  For a coin no heavier than the remaining weight,
    every combination the search returns weighs at most the remaining
    weight, whatever the catalog; and when the coin has a known
    denomination and the catalog has at most 16 coins, of known
    denominations and positive weights, the search does return such a
    combination. *)
Theorem returned_combination_fits (options : Coins) (coin : Coin)
    (remaining_weight : Z) :
  weight coin <= remaining_weight ->
  (forall fuel combination,
     run fuel coin remaining_weight options = Ret (Some combination) ->
     sum_weights combination <= remaining_weight) /\
  (supported coin ->
   Forall supported options ->
   Forall (fun c => 0 < weight c) options ->
   (length options <= 16)%nat ->
   exists combination,
     sum_weights combination <= remaining_weight /\
     forall fuel, (Z.to_nat (remaining_weight - weight coin) < fuel)%nat ->
       run fuel coin remaining_weight options = Ret (Some combination)).
Proof.
  intros Hfeasible. split.
  - intros fuel combination H. rewrite run_uncached in H.
    eapply uncached_weight. exact H.
  - intros Hs Hsup Hpos Hlen.
    destruct (uncached_result options coin remaining_weight Hs Hsup Hpos Hlen)
      as [result Hresult].
    pose proof (Hresult (S (Z.to_nat (remaining_weight - weight coin)))
                  ltac:(lia)) as H.
    destruct result as [combination|].
    + exists combination. split; [eapply uncached_weight; exact H|].
      intros fuel Hfuel. rewrite run_uncached. apply Hresult, Hfuel.
    + apply uncached_None in H. destruct H as [H _]. specialize (H eq_refl). lia.
Qed.

(** C3, on the code.  No call stores anything: whatever the arguments and
    the cache, the cache after the call is the cache before it.  So the
    first call of a process, [find_best_combination(Coin(0,0), 0, {})],
    returns the null coin alone and leaves the cache empty, with nothing
    under the fingerprint 0 of that call. *)
Theorem cache_is_never_written :
  (forall fuel coin remaining_weight options cache,
     (find_best_combination fuel coin remaining_weight options cache).2 = cache) /\
  fingerprint root 0 = Ret 0 /\
  find_best_combination 1 root 0 [] ∅ = (Ret (Some [root]), ∅) /\
  (∅ : Cache) !! 0 = None.
Proof.
  split; [intros; apply find_best_combination_cache|].
  split; [reflexivity|]. split; [|apply lookup_empty].
  rewrite find_best_combination_empty. reflexivity.
Qed.

(** C4.  From the empty cache of a fresh process, the search with the
    cache and the search against a cache that always misses have the same
    outcome, for every starting coin, budget, catalog and fuel: the same
    combination, hence the same total value, or the same failure.  With
    the cache code deleted altogether, fingerprint included, every result
    the search returns is still returned, and on the denominations [hash]
    knows the outcome is the same. *)
Theorem cache_is_pure_memoization (fuel : nat) (coin : Coin)
    (remaining_weight : Z) (options : Coins) :
  find_best_combination fuel coin remaining_weight options ∅
  = (find_best_combination_uncached fuel coin remaining_weight options, ∅) /\
  value_of (run fuel coin remaining_weight options)
  = value_of (find_best_combination_uncached fuel coin remaining_weight options) /\
  (forall result,
     run fuel coin remaining_weight options = Ret result ->
     find_best_combination_without_cache fuel coin remaining_weight options
     = Ret result) /\
  (supported coin -> Forall supported options ->
   run fuel coin remaining_weight options
   = find_best_combination_without_cache fuel coin remaining_weight options).
Proof.
  split; [apply find_best_combination_empty|]. rewrite run_uncached.
  split; [reflexivity|]. split.
  - apply without_cache_result.
  - intros Hs Hsup. apply without_cache_supported; assumption.
Qed.

(** C5, as amended.  For every non-empty list of at most 16 candidates
    whose total values fit an [int], [best_value] returns one of them, and
    its total value is at least that of every candidate. *)
Theorem best_value_is_maximum (combinations : list Coins) :
  combinations <> [] ->
  (length combinations <= 16)%nat ->
  Forall (fun c => is_int (sum_values c)) combinations ->
  exists best,
    best_value combinations = Ret best /\
    best ∈ combinations /\
    forall c, c ∈ combinations -> sum_values c <= sum_values best.
Proof. apply best_value_sums. Qed.

(** C6, as amended.  For every list of at most 16 candidates whose total
    values fit an [int], where [m] is the maximum total value, attained by
    one candidate or by several, [best_value] returns one of the
    candidates of total value [m]; nothing makes it the first of them. *)
Theorem best_value_returns_a_maximal_candidate (combinations : list Coins)
    (m : Z) :
  (length combinations <= 16)%nat ->
  Forall (fun c => is_int (sum_values c)) combinations ->
  (exists c, maximal combinations c /\ sum_values c = m) ->
  exists best,
    best_value combinations = Ret best /\
    maximal combinations best /\
    sum_values best = m.
Proof.
  intros Hlen Hfit (c & [Hc Hcmax] & Hm).
  destruct (best_value_sums combinations) as (best & Hbest & Hin & Hmax);
    [intros ->; inversion Hc|exact Hlen|exact Hfit|].
  exists best. split; [exact Hbest|]. split; [split; assumption|].
  specialize (Hmax c Hc). specialize (Hcmax best Hin). lia.
Qed.

(** C7, on the code.  In the reference run, whatever order the density
    sort of [main] leaves the catalog in, the first round of recursive
    calls gives every catalog coin the whole budget of 300.  The calls for
    the 1c and the 2c coin are two distinct subproblems with one
    fingerprint: 300^23 is far above 2^53, so adding the prime of a coin
    to it in [double] arithmetic changes nothing.  The same holds of all
    eight coins and of the root call. *)
Theorem fingerprints_collide_in_reference_run (comp : Coin -> Coin -> bool) :
  exists sorted,
    std_sort comp coin_options = Ret sorted /\
    arises sorted maximum_weight (mkCoin 1 26) maximum_weight /\
    arises sorted maximum_weight (mkCoin 2 52) maximum_weight /\
    (mkCoin 1 26, maximum_weight) <> (mkCoin 2 52, maximum_weight) /\
    fingerprint_double 2 maximum_weight = fingerprint_double 3 maximum_weight /\
    (exists h, fingerprint (mkCoin 1 26) maximum_weight = Ret h /\
               fingerprint (mkCoin 2 52) maximum_weight = Ret h) /\
    (forall c, c ∈ coin_options ->
               fingerprint c maximum_weight = fingerprint root maximum_weight).
Proof.
  exists (insertion_sort comp coin_options).
  split; [apply std_sort_short; simpl; lia|].
  assert (forall c, c ∈ coin_options ->
            arises (insertion_sort comp coin_options) maximum_weight c
              maximum_weight)
    as Harises.
  { intros c Hc.
    change maximum_weight with (int_sub maximum_weight (weight root)) at 2.
    apply arises_recursive; [apply arises_main|reflexivity|].
    rewrite (insertion_sort_permutation comp coin_options). exact Hc. }
  split; [apply Harises; compute_done|].
  split; [apply Harises; compute_done|].
  split; [discriminate|].
  split; [vm_compute; reflexivity|].
  split.
  - exists (ulong_of_double (fingerprint_double 2 maximum_weight)).
    split; [reflexivity|]. vm_compute. reflexivity.
  - intros c Hc. unfold coin_options in Hc.
    repeat (apply elem_of_cons in Hc as [->|Hc]; [vm_compute; reflexivity|]).
    inversion Hc.
Qed.

(** C8, as amended.  For every catalog of at most 16 coins, every
    permutation of it and every budget, the search started with the null
    coin has, at every fuel, the same outcome up to total value on both
    orderings: both runs return combinations of equal [int] total, or
    neither returns.  When moreover the coins have known denominations
    and positive weights and the budget lies between 0 and 2^31 / 200,
    both runs return, for every fuel above the budget, combinations of
    equal total value. *)
Theorem total_value_invariant_under_permutation (options options' : Coins)
    (budget : Z) :
  options ≡ₚ options' ->
  (length options <= 16)%nat ->
  (forall fuel,
     value_of (run fuel root budget options)
     = value_of (run fuel root budget options')) /\
  (Forall supported options ->
   Forall (fun c => 0 < weight c) options ->
   0 <= budget ->
   200 * budget < 2 ^ 31 ->
   exists combination combination',
     sum_values combination = sum_values combination' /\
     forall fuel, (Z.to_nat budget < fuel)%nat ->
       run fuel root budget options = Ret (Some combination) /\
       run fuel root budget options' = Ret (Some combination')).
Proof.
  intros Hperm Hlen.
  assert (length options' <= 16)%nat as Hlen' by (rewrite <- Hperm; exact Hlen).
  split.
  { intros fuel. rewrite !run_uncached.
    apply uncached_value_same_coins; [|exact Hlen|exact Hlen'].
    intros c. rewrite Hperm. reflexivity. }
  intros Hsup Hpos Hbudget Hfits.
  assert (Forall supported options') as Hsup' by (rewrite <- Hperm; exact Hsup).
  assert (Forall (fun c => 0 < weight c) options') as Hpos'
    by (rewrite <- Hperm; exact Hpos).
  assert (supported root) as Hroot by repeat constructor.
  destruct (uncached_result options root budget Hroot Hsup Hpos Hlen)
    as [result Hresult].
  destruct (uncached_result options' root budget Hroot Hsup' Hpos' Hlen')
    as [result' Hresult'].
  pose proof (Hresult (S (Z.to_nat (budget - weight root))) ltac:(lia)) as H.
  pose proof (Hresult' (S (Z.to_nat (budget - weight root))) ltac:(lia)) as H'.
  destruct result as [combination|];
    [|apply uncached_None in H; destruct H as [H _]; specialize (H eq_refl);
      simpl in H; lia].
  destruct result' as [combination'|];
    [|apply uncached_None in H'; destruct H' as [H' _]; specialize (H' eq_refl);
      simpl in H'; lia].
  exists combination, combination'. split.
  - apply uncached_weight in H as Hw. apply uncached_weight in H' as Hw'.
    apply uncached_catalog_coins in H as Hshape.
    apply uncached_catalog_coins in H' as Hshape'.
    destruct Hshape as (coins & Hc & Hcoins).
    destruct Hshape' as (coins' & Hc' & Hcoins').
    assert (200 * (budget - weight root) < 2 ^ 31) as Hw0 by (simpl; lia).
    pose proof (uncached_optimal options Hsup Hpos _ root budget _ Hw0 H
                  coins') as Hopt.
    pose proof (uncached_optimal options' Hsup' Hpos' _ root budget _ Hw0 H'
                  coins) as Hopt'.
    subst combination combination'.
    rewrite sum_weights_app in Hw, Hw'. rewrite sum_values_app in Hopt, Hopt'.
    rewrite !sum_values_app. simpl in *.
    assert (sum_values coins' + 0 <= sum_values coins + (0 + 0)) as H1.
    { apply Hopt; [|lia].
      eapply Forall_impl; [exact Hcoins'|]. intros c Hc.
      rewrite Hperm. exact Hc. }
    assert (sum_values coins + 0 <= sum_values coins' + (0 + 0)) as H2.
    { apply Hopt'; [|lia].
      eapply Forall_impl; [exact Hcoins|]. intros c Hc.
      rewrite <- Hperm. exact Hc. }
    lia.
  - intros fuel Hfuel. rewrite !run_uncached.
    split; [apply Hresult|apply Hresult']; simpl; rewrite Z.sub_0_r; exact Hfuel.
Qed.

(** C9, as amended.  On a catalog of at most 16 coins whose denominations
    [hash] knows and whose weights are positive, the search for a coin of
    a known denomination returns, and returns no combination exactly when
    the coin is heavier than the remaining weight; in particular the call
    of [main] with the null coin and a budget that is not negative returns
    a combination.  A coin of any other denomination makes the call throw
    [std::out_of_range]. *)
Theorem none_exactly_when_overweight (options : Coins) :
  Forall supported options ->
  Forall (fun c => 0 < weight c) options ->
  (length options <= 16)%nat ->
  (forall coin remaining_weight,
     supported coin ->
     exists result,
       (forall fuel, (Z.to_nat (remaining_weight - weight coin) < fuel)%nat ->
          run fuel coin remaining_weight options = Ret result) /\
       (result = None <-> weight coin > remaining_weight)) /\
  (forall budget,
     0 <= budget ->
     exists combination,
       forall fuel, (Z.to_nat budget < fuel)%nat ->
         run fuel root budget options = Ret (Some combination)) /\
  (forall fuel coin remaining_weight,
     ~ supported coin ->
     run (S fuel) coin remaining_weight options = OutOfRange).
Proof.
  intros Hsup Hpos Hlen.
  assert (forall coin remaining_weight,
            supported coin ->
            exists result,
              (forall fuel, (Z.to_nat (remaining_weight - weight coin) < fuel)%nat ->
                 run fuel coin remaining_weight options = Ret result) /\
              (result = None <-> weight coin > remaining_weight)) as Hall.
  { intros coin r Hs.
    destruct (uncached_result options coin r Hs Hsup Hpos Hlen) as [result Hresult].
    exists result. split.
    - intros fuel Hfuel. rewrite run_uncached. apply Hresult, Hfuel.
    - eapply uncached_None. apply (Hresult (S (Z.to_nat (r - weight coin)))). lia. }
  split; [exact Hall|]. split.
  - intros budget Hbudget.
    destruct (Hall root budget) as ([combination|] & Hrun & Hnone); [compute_done| |].
    + exists combination. intros fuel Hfuel. apply Hrun.
      simpl. rewrite Z.sub_0_r. exact Hfuel.
    + destruct Hnone as [Hnone _]. specialize (Hnone eq_refl). simpl in Hnone. lia.
  - intros fuel coin r Hs. rewrite run_uncached. apply hash_unsupported in Hs.
    simpl. unfold fingerprint. rewrite Hs. reflexivity.
Qed.

(** C10.  [hash] returns exactly on the coins whose value is one of 0, 1,
    2, 5, 10, 20, 50, 100, 200 and throws [out_of_range] on every other
    coin; a search called on such a coin throws at once, whatever the
    cache, and a search that has to recurse over a catalog holding such a
    coin never returns. *)
Theorem hash_is_partial :
  (forall coin, value coin ∈ denominations <-> returns (hash coin)) /\
  (forall coin, value coin ∉ denominations <-> hash coin = OutOfRange) /\
  (forall fuel coin remaining_weight options cache,
     value coin ∉ denominations ->
     find_best_combination (S fuel) coin remaining_weight options cache
     = (OutOfRange, cache)) /\
  (forall fuel coin remaining_weight options c,
     c ∈ options -> value c ∉ denominations ->
     weight coin < remaining_weight ->
     ~ returns (run fuel coin remaining_weight options)).
Proof.
  split; [exact hash_supported|]. split; [exact hash_unsupported|]. split.
  - intros fuel coin r options cache Hc. apply hash_unsupported in Hc.
    simpl. unfold bind at 1, lift at 1, fingerprint. rewrite Hc. reflexivity.
  - intros fuel coin r options c Hin Hc Hlt. rewrite run_uncached.
    eapply unsupported_never_returns; eauto.
Qed.

(** * Further properties of the code *)

(** ** The search: how deep it goes *)

Lemma collect_uncached_failure (search : Coin -> outcome (option Coins))
    (options : Coins) :
  forall combinations,
    (collect_uncached search options combinations = NoFuel ->
     exists c, c ∈ options /\ search c = NoFuel) /\
    (collect_uncached search options combinations = OutOfRange ->
     exists c, c ∈ options /\ search c = OutOfRange) /\
    (collect_uncached search options combinations = Undefined ->
     exists c, c ∈ options /\ search c = Undefined).
Proof.
  induction options as [|next_coin options IH]; intros combinations; simpl.
  - repeat split; discriminate.
  - destruct (search next_coin) as [[c|]| | |] eqn:E; simpl;
      repeat split; intros H; try discriminate;
      try (exists next_coin; split; [left|exact E]);
      apply IH in H as (c' & Hc' & Hres); exists c'; (split; [right|]); assumption.
Qed.

Lemma fingerprint_outcome (coin : Coin) (r : Z) :
  fingerprint coin r <> NoFuel /\ fingerprint coin r <> Undefined.
Proof.
  unfold fingerprint, hash.
  destruct (value_to_prime !! value coin); simpl; split; discriminate.
Qed.

Lemma uncached_depth (options : Coins) :
  Forall (fun c => 0 < weight c) options ->
  forall (n : nat) coin r,
    (Z.to_nat (r - weight coin) <= n)%nat ->
    find_best_combination_uncached (S n) coin r options <> NoFuel.
Proof.
  intros Hpos. rewrite Forall_forall in Hpos.
  induction n as [|n IH]; intros coin r Hn; simpl;
    destruct (fingerprint_outcome coin r) as [Hf _];
    (destruct (fingerprint coin r) as [h| | |]; simpl; [|discriminate..|congruence]);
    (destruct (r <? weight coin) eqn:E1; [discriminate|]);
    (destruct (weight coin =? r) eqn:E2; [discriminate|]);
    apply Z.ltb_ge in E1; apply Z.eqb_neq in E2.
  - lia.
  - destruct (collect_uncached _ options []) as [combinations| | |] eqn:E;
      simpl; try discriminate.
    + destruct (length combinations =? 0)%nat eqn:Hlen; [discriminate|].
      destruct (best_value_outcome combinations) as [Hb _].
      destruct (best_value combinations); simpl; congruence.
    + apply collect_uncached_failure in E as (c & Hc & Hres).
      exfalso. revert Hres. apply IH. specialize (Hpos c Hc). simpl in Hpos.
      pose proof (int_wrap_le (r - weight coin) ltac:(lia)) as Hwrap.
      fold (int_sub r (weight coin)) in Hwrap. lia.
Qed.

(** On known denominations nothing throws. *)
Lemma uncached_no_exception (options : Coins) :
  Forall supported options ->
  forall fuel coin r,
    supported coin ->
    find_best_combination_uncached fuel coin r options <> OutOfRange.
Proof.
  intros Hsup. rewrite Forall_forall in Hsup.
  induction fuel as [|fuel IH]; intros coin r Hs; simpl; [discriminate|].
  apply (fingerprint_returns coin r) in Hs as [h ->]. simpl.
  destruct (r <? weight coin); [discriminate|].
  destruct (weight coin =? r); [discriminate|].
  destruct (collect_uncached _ options []) as [combinations| | |] eqn:E; simpl;
    try discriminate.
  - destruct (length combinations =? 0)%nat eqn:Hlen; [discriminate|].
    destruct (best_value_outcome combinations) as [_ Hb].
    destruct (best_value combinations); simpl; congruence.
  - apply collect_uncached_failure in E as (c & Hc & Hres).
    exfalso. revert Hres. apply IH, Hsup, Hc.
Qed.

(** On a catalog of at most 16 coins every call of [std::sort] is on a
    range the insertion sort handles, and [front()] is only taken of a
    vector that is not empty. *)
Lemma uncached_defined (options : Coins) :
  (length options <= 16)%nat ->
  forall fuel coin r,
    find_best_combination_uncached fuel coin r options <> Undefined.
Proof.
  intros Hlen.
  induction fuel as [|fuel IH]; intros coin r; simpl; [discriminate|].
  destruct (fingerprint_outcome coin r) as [_ Hf].
  destruct (fingerprint coin r) as [h| | |]; simpl;
    [|discriminate|congruence|discriminate].
  destruct (r <? weight coin); [discriminate|].
  destruct (weight coin =? r); [discriminate|].
  destruct (collect_uncached _ options []) as [combinations| | |] eqn:E; simpl;
    try discriminate.
  - destruct (length combinations =? 0)%nat eqn:Hnil; [discriminate|].
    apply collect_uncached_Ret in E as (results & HF & ->). simpl in *.
    pose proof (candidates_length _ _ _ HF) as Hcand.
    destruct (best_value_maximal (omap id results)) as (best & -> & _);
      [intros Hempty; rewrite Hempty in Hnil; discriminate|lia|].
    discriminate.
  - apply collect_uncached_failure in E as (c & _ & Hres).
    exfalso. revert Hres. apply IH.
Qed.

(** A catalog coin of weight 0 never uses up the remaining weight: a
    search that reaches the inductive case recurses for ever. *)
Lemma zero_weight_out_of_fuel (options : Coins) (c : Coin) :
  Forall supported options ->
  Forall (fun c => 0 <= weight c) options ->
  c ∈ options -> weight c = 0 ->
  forall fuel coin r,
    supported coin ->
    0 <= weight coin -> weight coin < r -> r < 2 ^ 31 ->
    find_best_combination_uncached fuel coin r options = NoFuel.
Proof.
  intros Hsup Hnonneg Hin Hzero.
  induction fuel as [|fuel IH]; intros coin r Hs Hw Hlt Hr; [reflexivity|].
  assert (int_sub r (weight coin) = r - weight coin) as Hsub
    by (apply int_wrap_small; unfold is_int; lia).
  assert (forall c', c' ∈ options ->
            (exists res, find_best_combination_uncached fuel c'
                           (int_sub r (weight coin)) options = Ret res) \/
            find_best_combination_uncached fuel c'
              (int_sub r (weight coin)) options = NoFuel) as Hcalls.
  { intros c' Hc'. rewrite Hsub. rewrite Forall_forall in Hsup, Hnonneg.
    specialize (Hsup c' Hc'). specialize (Hnonneg c' Hc'). simpl in Hnonneg.
    destruct (Z.lt_trichotomy (r - weight coin) (weight c')) as [H|[H|H]].
    - destruct fuel as [|fuel]; [right; reflexivity|]. left. exists None.
      apply uncached_step. auto.
    - destruct fuel as [|fuel]; [right; reflexivity|]. left. exists (Some [c']).
      apply uncached_step. auto.
    - right. apply IH; [exact Hsup|exact Hnonneg|exact H|lia]. }
  assert (find_best_combination_uncached fuel c (int_sub r (weight coin)) options
          = NoFuel) as Hc.
  { rewrite Hsub. apply IH; [|lia..].
    rewrite Forall_forall in Hsup. apply Hsup, Hin. }
  simpl. apply (fingerprint_returns coin r) in Hs as [h ->]. simpl.
  apply Z.ltb_ge in Hw as Hw'.
  destruct (r <? weight coin) eqn:E1; [apply Z.ltb_lt in E1; lia|].
  destruct (weight coin =? r) eqn:E2; [apply Z.eqb_eq in E2; lia|].
  destruct (collect_uncached _ options []) as [combinations| | |] eqn:E;
    [| | |reflexivity].
  - apply collect_uncached_Ret in E as (results & HF & _).
    apply list_elem_of_lookup in Hin as [i Hi].
    eapply Forall2_lookup_l in HF as (result & _ & Hres); [|exact Hi].
    congruence.
  - apply collect_uncached_failure in E as (c' & Hc' & Hres).
    destruct (Hcalls c' Hc') as [[res H]|H]; congruence.
  - apply collect_uncached_failure in E as (c' & Hc' & Hres).
    destruct (Hcalls c' Hc') as [[res H]|H]; congruence.
Qed.

(** ** [std::sort]: the order it leaves *)

Section StdSortOrder.

Context {A : Type} (comp : A -> A -> bool).
Hypothesis comp_total : forall a b, comp a b = false -> comp b a = true.
Hypothesis comp_trans :
  forall a b c, comp a b = true -> comp b c = true -> comp a c = true.

#[local] Abbreviation before := (fun a b : A => comp a b = true).

Lemma unguarded_linear_insert_sorted (val : A) (left right : list A) :
  StronglySorted before (rev left ++ right) ->
  Forall (before val) right ->
  StronglySorted before (unguarded_linear_insert comp val left right).
Proof.
  revert right. induction left as [|next left IH]; intros right Hsorted Hval.
  - simpl in *. constructor; assumption.
  - cbn [unguarded_linear_insert]. destruct (comp val next) eqn:E.
    + apply IH.
      * simpl in Hsorted. rewrite <- app_assoc in Hsorted. exact Hsorted.
      * constructor; assumption.
    + rewrite rev_append_rev.
      apply StronglySorted_app in Hsorted as (Hcross & Hleft & Hright).
      apply StronglySorted_app. split; [|split].
      * intros x1 x2 Hx1 Hx2. apply elem_of_cons in Hx2 as [->|Hx2];
          [|apply Hcross; assumption].
        simpl in Hx1. apply elem_of_app in Hx1 as [Hx1|Hx1].
        -- apply (comp_trans x1 next val).
           ++ simpl in Hleft.
              eapply (StronglySorted_app_1_elem_of before (rev left) [next]);
                [exact Hleft|exact Hx1|left].
           ++ apply comp_total, E.
        -- apply list_elem_of_singleton in Hx1. subst. apply comp_total, E.
      * exact Hleft.
      * constructor; assumption.
Qed.

Lemma insertion_step_sorted (sorted : list A) (x : A) :
  StronglySorted before sorted ->
  StronglySorted before (insertion_step comp sorted x).
Proof.
  intros Hsorted. destruct sorted as [|first sorted]; simpl.
  - constructor; constructor.
  - destruct (comp x first) eqn:E.
    + constructor; [exact Hsorted|].
      apply StronglySorted_inv in Hsorted as [_ Hfirst].
      constructor; [exact E|].
      eapply Forall_impl; [exact Hfirst|]. intros y Hy.
      apply (comp_trans x first y); assumption.
    + apply unguarded_linear_insert_sorted; [|constructor].
      rewrite app_nil_r. change (rev sorted ++ [first]) with (rev (first :: sorted)).
      rewrite rev_involutive. exact Hsorted.
Qed.

Lemma insertion_sort_sorted (l : list A) :
  StronglySorted before (insertion_sort comp l).
Proof.
  unfold insertion_sort. destruct l as [|x l]; [constructor|].
  assert (forall sorted, StronglySorted before sorted ->
            StronglySorted before (fold_left (insertion_step comp) l sorted)) as H.
  { induction l as [|y l IH]; intros sorted Hsorted; simpl; [exact Hsorted|].
    apply IH, insertion_step_sorted, Hsorted. }
  apply H. constructor; constructor.
Qed.

End StdSortOrder.

(** ** [hash(Coins const&)] *)

Lemma hash_prime (coin : Coin) (prime : Z) :
  hash coin = Ret prime -> 0 <= prime <= 19.
Proof.
  unfold hash. destruct (value_to_prime !! value coin) as [q|] eqn:E;
    [|discriminate].
  intros [= <-]. unfold value_to_prime in E. simpl in E.
  repeat (apply lookup_insert_Some in E as [[_ <-] | [_ E]]; [lia|]).
  rewrite lookup_empty in E. discriminate.
Qed.

Lemma hash_outcome (coin : Coin) :
  (exists prime, hash coin = Ret prime) \/ hash coin = OutOfRange.
Proof. unfold hash. destruct (value_to_prime !! value coin); eauto. Qed.

Lemma hash_coins_from_returns (coins : Coins) :
  forall h,
    (Forall supported coins -> returns (hash_coins_from h coins)) /\
    (~ Forall supported coins -> hash_coins_from h coins = OutOfRange).
Proof.
  induction coins as [|coin coins IH]; intros h; simpl.
  - split; [intros _; apply returns_Ret|]. intros H. destruct H. constructor.
  - destruct (hash_outcome coin) as [[prime Hp]|Hp]; rewrite Hp; simpl.
    + destruct (IH ((h + prime) mod 2 ^ 64)) as [IH1 IH2]. split.
      * intros H. apply Forall_cons in H as [_ H]. apply IH1, H.
      * intros H. apply IH2. intros Hcoins. apply H. constructor; [|exact Hcoins].
        apply hash_supported. exists prime. exact Hp.
    + split; [|reflexivity]. intros H. apply Forall_cons in H as [H _].
      apply hash_supported in H as [prime H]. congruence.
Qed.

Lemma hash_coins_from_shift (coins : Coins) :
  forall h,
    0 <= h < 2 ^ 64 ->
    hash_coins_from h coins
    = obind (hash_coins_from 0 coins) (fun x => Ret ((h + x) mod 2 ^ 64)).
Proof.
  induction coins as [|coin coins IH]; intros h Hh; simpl.
  - rewrite Z.add_0_r, Z.mod_small by lia. reflexivity.
  - destruct (hash_outcome coin) as [[prime Hp]|Hp]; rewrite Hp; simpl;
      [|reflexivity].
    rewrite (IH ((h + prime) mod 2 ^ 64)) by (apply Z.mod_pos_bound; lia).
    rewrite (IH ((0 + prime) mod 2 ^ 64)) by (apply Z.mod_pos_bound; lia).
    destruct (hash_coins_from 0 coins) as [x| | |]; simpl; try reflexivity.
    f_equal. rewrite Z.add_mod_idemp_l, Z.add_mod_idemp_l by lia.
    rewrite Z.add_mod_idemp_r by lia. f_equal. lia.
Qed.

Lemma hash_coins_from_bound (coins : Coins) :
  forall h x,
    0 <= h < 2 ^ 64 ->
    hash_coins_from h coins = Ret x ->
    0 <= x < 2 ^ 64 /\ x <= h + 19 * Z.of_nat (length coins).
Proof.
  induction coins as [|coin coins IH]; intros h x Hh; simpl.
  - intros [= <-]. lia.
  - destruct (hash_outcome coin) as [[prime Hp]|Hp]; rewrite Hp; simpl;
      [|discriminate].
    apply hash_prime in Hp. intros H.
    apply IH in H as [Hx Hle]; [|apply Z.mod_pos_bound; lia].
    split; [exact Hx|].
    assert ((h + prime) mod 2 ^ 64 <= h + prime) by (apply Z.mod_le; lia).
    lia.
Qed.

Lemma hash_coins_from_permutation (coins coins' : Coins) :
  coins ≡ₚ coins' ->
  forall h, hash_coins_from h coins = hash_coins_from h coins'.
Proof.
  induction 1 as [|c l l' _ IH|c1 c2 l|l1 l2 l3 _ IH1 _ IH2]; intros h; simpl.
  - reflexivity.
  - destruct (hash c); simpl; auto.
  - destruct (hash_outcome c1) as [[p1 Hp1]|Hp1];
      destruct (hash_outcome c2) as [[p2 Hp2]|Hp2];
      rewrite Hp1, Hp2; simpl; try reflexivity.
    f_equal. rewrite !Z.add_mod_idemp_l by lia. f_equal. lia.
  - rewrite IH1. apply IH2.
Qed.

(** * Further theorems *)

(** The call of [main] on a catalog of at most 16 coins of known
    denominations and positive weights, with a budget whose best value
    fits an [int]. *)
Lemma run_maximum (options : Coins) (budget : Z) :
  Forall supported options ->
  Forall (fun c => 0 < weight c) options ->
  (length options <= 16)%nat ->
  0 <= budget ->
  200 * budget < 2 ^ 31 ->
  exists coins,
    Forall (fun c => c ∈ options) coins /\
    sum_weights coins <= budget /\
    total_value coins = sum_values coins /\
    total_weight coins = sum_weights coins /\
    (forall fuel, (Z.to_nat budget < fuel)%nat ->
       run fuel root budget options = Ret (Some (coins ++ [root]))) /\
    forall l, Forall (fun c => c ∈ options) l ->
              sum_weights l <= budget ->
              sum_values l <= sum_values coins.
Proof.
  intros Hsup Hpos Hlen Hbudget Hfits.
  destruct (uncached_result options root budget) as [result Hresult];
    [repeat constructor|exact Hsup|exact Hpos|exact Hlen|].
  pose proof (Hresult (S (Z.to_nat (budget - weight root))) ltac:(lia)) as H.
  destruct result as [combination|];
    [|apply uncached_None in H; destruct H as [H _]; specialize (H eq_refl);
      simpl in H; lia].
  apply uncached_catalog_coins in H as Hshape. destruct Hshape as (coins & -> & Hcoins).
  apply uncached_weight in H as Hw. rewrite sum_weights_app in Hw. simpl in Hw.
  destruct (selection_bounds options coins Hsup Hpos Hcoins) as (Hv & Hnonneg & _).
  exists coins. split; [exact Hcoins|]. split; [lia|].
  split; [apply total_value_exact; unfold is_int; lia|].
  split; [apply total_weight_exact; unfold is_int; lia|]. split.
  - intros fuel Hfuel. rewrite run_uncached. apply Hresult.
    simpl. rewrite Z.sub_0_r. exact Hfuel.
  - intros l Hl Hfit.
    assert (200 * (budget - weight root) < 2 ^ 31) as Hw0 by (simpl; lia).
    pose proof (uncached_optimal options Hsup Hpos _ root budget _ Hw0 H
                  l Hl) as Hopt.
    rewrite sum_values_app in Hopt. simpl in Hopt. lia.
Qed.

(** X1.  On a catalog of at most 16 coins of known denominations and
    positive weights and a budget between 0 and 2^31 / 200, the call of
    [main] returns a selection of catalog coins within the budget,
    followed by the root coin, and no selection of catalog coins within
    the budget has a larger total value: the search is exhaustive. *)
Theorem search_returns_maximum_value (options : Coins) (budget : Z) :
  Forall supported options ->
  Forall (fun c => 0 < weight c) options ->
  (length options <= 16)%nat ->
  0 <= budget ->
  200 * budget < 2 ^ 31 ->
  exists coins,
    Forall (fun c => c ∈ options) coins /\
    sum_weights coins <= budget /\
    (forall fuel, (Z.to_nat budget < fuel)%nat ->
       run fuel root budget options = Ret (Some (coins ++ [root]))) /\
    forall l, Forall (fun c => c ∈ options) l ->
              sum_weights l <= budget ->
              sum_values l <= sum_values coins.
Proof.
  intros Hsup Hpos Hlen Hbudget Hfits.
  destruct (run_maximum options budget Hsup Hpos Hlen Hbudget Hfits)
    as (coins & H1 & H2 & _ & _ & H3 & H4).
  exists coins. auto.
Qed.

(** X2.  A combination the search returns is a list of catalog coins
    followed by the coin of the call, so the [pop_back] of [main] removes
    exactly the root coin. *)
Theorem returned_combination_shape (fuel : nat) (coin : Coin) (r : Z)
    (options combination : Coins) :
  run fuel coin r options = Ret (Some combination) ->
  exists coins,
    combination = coins ++ [coin] /\
    pop_back combination = coins /\
    Forall (fun c => c ∈ options) coins.
Proof.
  rewrite run_uncached. intros H.
  apply uncached_catalog_coins in H as (coins & -> & Hcoins).
  exists coins. split; [reflexivity|]. split; [|exact Hcoins].
  unfold pop_back. apply removelast_last.
Qed.

(** X3.  When every catalog coin has a positive weight the recursion is at
    most [remaining_weight - coin.weight + 1] calls deep, whatever the
    denominations: with more fuel than that the search never runs out. *)
Theorem recursion_depth_bounded (options : Coins) (coin : Coin) (r : Z)
    (fuel : nat) :
  Forall (fun c => 0 < weight c) options ->
  (Z.to_nat (r - weight coin) < fuel)%nat ->
  run fuel coin r options <> NoFuel.
Proof.
  intros Hpos Hfuel. rewrite run_uncached.
  destruct fuel as [|fuel]; [lia|]. apply uncached_depth; [exact Hpos|lia].
Qed.

(** X4.  A catalog coin of weight 0 makes every search that has to recurse
    go on for ever: on known denominations and weights that are not
    negative, when the coin of the call is lighter than the remaining
    weight, the outcome is out of fuel for every fuel. *)
Theorem zero_weight_recurses_forever (options : Coins) (c coin : Coin)
    (r : Z) (fuel : nat) :
  supported coin ->
  Forall supported options ->
  Forall (fun c => 0 <= weight c) options ->
  c ∈ options -> weight c = 0 ->
  0 <= weight coin -> weight coin < r -> r < 2 ^ 31 ->
  run fuel coin r options = NoFuel.
Proof.
  intros Hs Hsup Hnonneg Hc Hzero Hw Hlt Hr. rewrite run_uncached.
  eapply zero_weight_out_of_fuel; eassumption.
Qed.

(** X5.  On known denominations and positive catalog weights, as long as
    the larger budget leaves the catalog coins less than 2^31 / 200, more
    budget and more coins to choose from never lower the total value of
    the combination returned. *)
Theorem value_grows_with_budget_and_catalog (options options' : Coins)
    (coin : Coin) (budget budget' : Z) (fuel fuel' : nat)
    (combination combination' : Coins) :
  Forall supported options' ->
  Forall (fun c => 0 < weight c) options' ->
  (forall c, c ∈ options -> c ∈ options') ->
  budget <= budget' ->
  200 * (budget' - weight coin) < 2 ^ 31 ->
  run fuel coin budget options = Ret (Some combination) ->
  run fuel' coin budget' options' = Ret (Some combination') ->
  sum_values combination <= sum_values combination'.
Proof.
  intros Hsup Hpos Hsub Hle Hfits. rewrite !run_uncached. intros H H'.
  apply uncached_weight in H as Hfit.
  apply uncached_catalog_coins in H as (coins & -> & Hcoins).
  rewrite sum_weights_app in Hfit. rewrite sum_values_app. simpl in *.
  rewrite Z.add_0_r in *.
  eapply (uncached_optimal options' Hsup Hpos _ _ _ _ Hfits H' coins); [|lia].
  eapply Forall_impl; [exact Hcoins|]. intros c. apply Hsub.
Qed.

Lemma hash_coins_from_app (coins1 coins2 : Coins) :
  forall h,
    hash_coins_from h (coins1 ++ coins2)
    = obind (hash_coins_from h coins1) (fun x => hash_coins_from x coins2).
Proof.
  induction coins1 as [|coin coins1 IH]; intros h; simpl; [reflexivity|].
  destruct (hash coin); simpl; auto.
Qed.

(** X6.  [hash] on a vector returns exactly when [hash] knows every coin
    of it, and throws [out_of_range] otherwise; the sum it returns is an
    [unsigned long] of at most 19 for each coin. *)
Theorem hash_coins_defined (coins : Coins) :
  (Forall supported coins ->
   exists h, hash_coins coins = Ret h /\
             0 <= h < 2 ^ 64 /\ h <= 19 * Z.of_nat (length coins)) /\
  (~ Forall supported coins -> hash_coins coins = OutOfRange).
Proof.
  unfold hash_coins. split.
  - intros H. apply (hash_coins_from_returns coins 0) in H as [h Hh].
    exists h. split; [exact Hh|].
    apply hash_coins_from_bound in Hh; [|lia]. lia.
  - apply hash_coins_from_returns.
Qed.

(** X7.  [hash] on a vector does not see the order of the coins: two
    vectors with the same coins have the same outcome. *)
Theorem hash_coins_permutation (coins coins' : Coins) :
  coins ≡ₚ coins' -> hash_coins coins = hash_coins coins'.
Proof. intros H. apply hash_coins_from_permutation, H. Qed.

(** X8.  [hash] of two vectors put end to end is the sum of their hashes,
    wrapped at 2^64. *)
Theorem hash_coins_app (coins1 coins2 : Coins) (h1 h2 : Z) :
  hash_coins coins1 = Ret h1 ->
  hash_coins coins2 = Ret h2 ->
  hash_coins (coins1 ++ coins2) = Ret ((h1 + h2) mod 2 ^ 64).
Proof.
  unfold hash_coins. intros H1 H2. rewrite hash_coins_from_app, H1. simpl.
  apply hash_coins_from_bound in H1 as [Hh1 _]; [|lia].
  rewrite hash_coins_from_shift by exact Hh1. rewrite H2. reflexivity.
Qed.

Lemma StronglySorted_weaken {A : Type} (R R' : A -> A -> Prop) (l : list A) :
  (forall x y, R x y -> R' x y) -> StronglySorted R l -> StronglySorted R' l.
Proof.
  intros HR. induction 1 as [|x l _ IH Hx]; constructor; [exact IH|].
  eapply Forall_impl; [exact Hx|]. intros y. apply HR.
Qed.

(** X10.  On at most 16 candidates the sort of [best_value] only
    rearranges the pairs, and leaves them in descending order of total
    value: every pair has a total value at least that of every pair after
    it. *)
Theorem best_value_sort_descending (pairs : list (Z * Coins)) :
  (length pairs <= 16)%nat ->
  exists sorted,
    std_sort value_ge pairs = Ret sorted /\
    sorted ≡ₚ pairs /\
    StronglySorted (fun p q => q.1 <= p.1) sorted.
Proof.
  intros Hlen. exists (insertion_sort value_ge pairs).
  split; [apply std_sort_short, Hlen|].
  split; [apply insertion_sort_permutation|].
  eapply StronglySorted_weaken; [|apply (insertion_sort_sorted value_ge)].
  - intros p q H. simpl in H. unfold value_ge in H. apply Z.leb_le, H.
  - intros a b H. unfold value_ge in *. apply Z.leb_gt in H. apply Z.leb_le. lia.
  - intros a b c H1 H2. unfold value_ge in *.
    apply Z.leb_le in H1, H2. apply Z.leb_le. lia.
Qed.

(** X11.  [copy_combination] returns a vector equal to its argument, coin
    for coin. *)
Theorem copy_combination_equal (coins : Coins) :
  copy_combination coins = coins /\
  length (copy_combination coins) = length coins.
Proof. rewrite copy_combination_id. split; reflexivity. Qed.

(** ** The streams *)

Lemma string_app_cons (a : ascii) (s t : string) :
  String a s +:+ t = String a (s +:+ t).
Proof. reflexivity. Qed.

Lemma string_app_nil_l (s : string) : "" +:+ s = s.
Proof. reflexivity. Qed.

Lemma string_app_nil_r (s : string) : s +:+ "" = s.
Proof.
  induction s as [|a s IH]; [reflexivity|]. rewrite string_app_cons, IH.
  reflexivity.
Qed.

Lemma string_app_assoc (s1 s2 s3 : string) :
  (s1 +:+ s2) +:+ s3 = s1 +:+ (s2 +:+ s3).
Proof.
  induction s1 as [|a s1 IH]; [reflexivity|].
  rewrite !string_app_cons, IH. reflexivity.
Qed.

Ltac flatten_in H :=
  rewrite ?string_app_assoc in H;
  repeat (rewrite string_app_cons in H || rewrite string_app_nil_l in H).

#[local] Abbreviation plain := (fun a : ascii => a <> ","%char /\ a <> ")"%char).

Lemma pretty_N_char_plain (d : N) : plain (pretty_N_char d).
Proof. unfold pretty_N_char. repeat case_match; split; discriminate. Qed.

Lemma pretty_N_go_plain (x : N) :
  forall s,
    Forall plain (String.list_ascii_of_string s) ->
    Forall plain (String.list_ascii_of_string (pretty_N_go x s)).
Proof.
  induction (N.lt_wf_0 x) as [x _ IH]; intros s Hs.
  assert (x = 0 \/ 0 < x)%N as [->|Hx] by lia.
  - rewrite pretty_N_go_0. exact Hs.
  - rewrite pretty_N_go_step by exact Hx. apply IH.
    + apply N.div_lt; [exact Hx|reflexivity].
    + simpl. constructor; [apply pretty_N_char_plain|exact Hs].
Qed.

(** A number is written with digits and a sign only. *)
Lemma pretty_Z_plain (z : Z) :
  Forall plain (String.list_ascii_of_string (pretty z)).
Proof.
  assert (forall p, Forall plain (String.list_ascii_of_string (pretty (Npos p))))
    as Hpos.
  { intros p. unfold pretty, pretty_N.
    destruct (decide (N.pos p = 0%N)); [discriminate|].
    apply pretty_N_go_plain. constructor. }
  unfold pretty, pretty_Z. destruct z as [|p|p].
  - repeat constructor; discriminate.
  - apply Hpos.
  - simpl. constructor; [split; discriminate|]. apply Hpos.
Qed.

Lemma split_at (d : ascii) (s1 s2 t1 t2 : string) :
  Forall (fun a => a <> d) (String.list_ascii_of_string s1) ->
  Forall (fun a => a <> d) (String.list_ascii_of_string s2) ->
  s1 +:+ String d t1 = s2 +:+ String d t2 ->
  s1 = s2 /\ t1 = t2.
Proof.
  revert s2. induction s1 as [|a s1 IH]; intros [|b s2] H1 H2 H; simpl in *.
  - injection H as ->. auto.
  - injection H as <- _. apply Forall_cons in H2 as [H2 _]. congruence.
  - injection H as -> _. apply Forall_cons in H1 as [H1 _]. congruence.
  - injection H as -> H. apply Forall_cons in H1 as [_ H1].
    apply Forall_cons in H2 as [_ H2].
    destruct (IH s2 H1 H2 H) as [-> ->]. auto.
Qed.

(** The text of a coin can be read back, whatever follows it. *)
Lemma coin_text_split (c1 c2 : Coin) (rest1 rest2 : string) :
  print_coin "" c1 +:+ rest1 = print_coin "" c2 +:+ rest2 ->
  c1 = c2 /\ rest1 = rest2.
Proof.
  unfold print_coin. intros H. flatten_in H. injection H as H.
  apply split_at in H as [Hv H].
  - flatten_in H. injection H as H.
    apply split_at in H as [Hw H].
    + apply (inj pretty) in Hv, Hw. destruct c1, c2; simpl in *. subst. auto.
    + eapply Forall_impl; [apply pretty_Z_plain|]. intros a [_ Ha]. exact Ha.
    + eapply Forall_impl; [apply pretty_Z_plain|]. intros a [_ Ha]. exact Ha.
  - eapply Forall_impl; [apply pretty_Z_plain|]. intros a [Ha _]. exact Ha.
  - eapply Forall_impl; [apply pretty_Z_plain|]. intros a [Ha _]. exact Ha.
Qed.

#[local] Abbreviation coins_text :=
  (foldr (fun (c : Coin) (s : string) => print_coin "" c +:+ ", " +:+ s) "").

Lemma print_loop (coins : Coins) :
  forall out,
    fold_left (fun out coin => print_coin out coin +:+ ", ") coins out
    = out +:+ coins_text coins.
Proof.
  induction coins as [|c coins IH]; intros out; simpl.
  - rewrite string_app_nil_r. reflexivity.
  - rewrite IH. unfold print_coin. rewrite !string_app_assoc. reflexivity.
Qed.

Lemma print_coins_text (out : string) (coins : Coins) :
  print_coins out coins = out +:+ "[" +:+ coins_text coins +:+ "]".
Proof.
  unfold print_coins. rewrite print_loop, !string_app_assoc. reflexivity.
Qed.

Lemma coins_text_inj (coins1 : Coins) :
  forall coins2,
    coins_text coins1 +:+ "]" = coins_text coins2 +:+ "]" -> coins1 = coins2.
Proof.
  induction coins1 as [|c1 coins1 IH]; intros [|c2 coins2] H; simpl in H.
  - reflexivity.
  - unfold print_coin in H. flatten_in H. discriminate.
  - unfold print_coin in H. flatten_in H. discriminate.
  - rewrite !string_app_assoc in H. apply coin_text_split in H as [-> H].
    flatten_in H. injection H as H. f_equal. apply IH.
    rewrite H. reflexivity.
Qed.

(** X12.  Writing a coin only appends to the stream, and the text
    appended determines the coin: two coins written alike are equal. *)
Theorem print_coin_appends_injective :
  (forall out coin, print_coin out coin = out +:+ print_coin "" coin) /\
  (forall out c1 c2, print_coin out c1 = print_coin out c2 -> c1 = c2).
Proof.
  split; [reflexivity|]. intros out c1 c2 H.
  change (out +:+ print_coin "" c1 = out +:+ print_coin "" c2) in H.
  apply (inj (String.app out)) in H.
  rewrite <- (string_app_nil_r (print_coin "" c1)) in H.
  rewrite <- (string_app_nil_r (print_coin "" c2)) in H.
  apply coin_text_split in H as [H _]. exact H.
Qed.

(** X13.  Writing a vector of coins only appends to the stream: an opening
    bracket, every coin followed by a comma and a space, a closing
    bracket.  The text appended determines the vector. *)
Theorem print_coins_appends_injective :
  (forall out coins, print_coins out coins = out +:+ print_coins "" coins) /\
  (forall out coins1 coins2,
     print_coins out coins1 = print_coins out coins2 -> coins1 = coins2).
Proof.
  split.
  - intros out coins. rewrite !print_coins_text. reflexivity.
  - intros out coins1 coins2 H. rewrite !print_coins_text in H.
    apply (inj (String.app out)) in H. flatten_in H. injection H as H.
    apply coins_text_inj. exact H.
Qed.

(** ** [main] *)

Lemma print_coins_appends (out : string) (coins : Coins) :
  print_coins out coins = out +:+ print_coins "" coins.
Proof. rewrite !print_coins_text. reflexivity. Qed.

Lemma sorted_catalog_coins (options : Coins) (c : Coin) :
  c ∈ insertion_sort density_ge options <-> c ∈ options.
Proof. rewrite (insertion_sort_permutation density_ge options). reflexivity. Qed.

Lemma sorted_catalog_Forall (P : Coin -> Prop) (options : Coins) :
  Forall P options -> Forall P (insertion_sort density_ge options).
Proof.
  intros H. rewrite (insertion_sort_permutation density_ge options). exact H.
Qed.

Lemma sorted_catalog_length (options : Coins) :
  length (insertion_sort density_ge options) = length options.
Proof. rewrite (insertion_sort_permutation density_ge options). reflexivity. Qed.

(** X14.  With a negative maximum weight not even the root coin fits: on
    at most 16 coin options, whatever they are, [main] writes the options
    as the insertion sort leaves them and "No result found :(", and exits
    with status 1. *)
Theorem program_negative_budget (fuel : nat) (maximum_weight : Z)
    (coin_options : Coins) :
  (length coin_options <= 16)%nat ->
  maximum_weight < 0 ->
  program (S fuel) maximum_weight coin_options
  = Ret ("Coins ordered by most valuable first:" +:+ endl
         +:+ print_coins "" (insertion_sort density_ge coin_options) +:+ endl
         +:+ "No result found :(" +:+ endl, 1).
Proof.
  intros Hlen Hneg. unfold program. rewrite std_sort_short by exact Hlen.
  cbn [obind].
  assert (run (S fuel) root maximum_weight (insertion_sort density_ge coin_options)
          = Ret None) as ->.
  { rewrite run_uncached. apply uncached_step. split; [repeat constructor|].
    left. split; [exact Hneg|reflexivity]. }
  cbn [obind]. f_equal. f_equal.
  rewrite print_coins_appends, !string_app_assoc. reflexivity.
Qed.

(** X15.  On at most 16 coin options of known denominations and positive
    weights and a maximum weight between 0 and 2^31 / 200, [main] exits
    with status 0 after writing, as its last two lines, the total value
    and the total weight of a selection of the options: one within the
    maximum weight, and of the largest total value any such selection
    has. *)
Theorem program_reports_maximum (maximum_weight : Z) (coin_options : Coins) :
  Forall supported coin_options ->
  Forall (fun c => 0 < weight c) coin_options ->
  (length coin_options <= 16)%nat ->
  0 <= maximum_weight ->
  200 * maximum_weight < 2 ^ 31 ->
  exists coins out,
    Forall (fun c => c ∈ coin_options) coins /\
    sum_weights coins <= maximum_weight /\
    (forall l, Forall (fun c => c ∈ coin_options) l ->
               sum_weights l <= maximum_weight ->
               sum_values l <= sum_values coins) /\
    forall fuel, (Z.to_nat maximum_weight < fuel)%nat ->
      program fuel maximum_weight coin_options
      = Ret (out +:+ "Total value: " +:+ pretty (sum_values coins) +:+ endl
                 +:+ "Total weight: " +:+ pretty (sum_weights coins) +:+ endl,
             0).
Proof.
  intros Hsup Hpos Hlen Hbudget Hfits.
  destruct (run_maximum (insertion_sort density_ge coin_options) maximum_weight)
    as (coins & Hcoins & Hfit & Hvalue & Hweight & Hrun & Hmax);
    [apply sorted_catalog_Forall, Hsup|apply sorted_catalog_Forall, Hpos
    |rewrite sorted_catalog_length; exact Hlen|exact Hbudget|exact Hfits|].
  exists coins.
  exists (print_coins
            (print_coins ("Coins ordered by most valuable first:" +:+ endl)
                         (insertion_sort density_ge coin_options)
             +:+ endl +:+ "Maximum possible result found!" +:+ endl)
            (coins ++ [root]) +:+ endl).
  split; [|split; [exact Hfit|split]].
  - eapply Forall_impl; [exact Hcoins|]. intros c. apply sorted_catalog_coins.
  - intros l Hl. apply Hmax.
    eapply Forall_impl; [exact Hl|]. intros c. apply sorted_catalog_coins.
  - intros fuel Hfuel. unfold program. rewrite std_sort_short by exact Hlen.
    cbn [obind]. rewrite (Hrun fuel Hfuel). cbn [obind].
    unfold pop_back. rewrite removelast_last, Hvalue, Hweight. f_equal. f_equal.
    rewrite !string_app_assoc. reflexivity.
Qed.

(** X16.  [main] as it stands: the recursion is 13 calls deep, and the run
    writes the coins by descending density, the combination of four 200c
    coins and one 5c coin before the root coin, a total value of 805 and a
    total weight of 292, and exits with status 0. *)
Theorem main_output :
  (forall fuel, (fuel < 13)%nat -> main fuel = NoFuel) /\
  (forall fuel, (13 <= fuel)%nat ->
     main fuel
     = Ret ("Coins ordered by most valuable first:" +:+ endl
            +:+ "[Coin(v=200, w=66), Coin(v=100, w=90), Coin(v=50, w=155), "
            +:+ "Coin(v=10, w=56), Coin(v=5, w=28), Coin(v=20, w=113), "
            +:+ "Coin(v=2, w=52), Coin(v=1, w=26), ]" +:+ endl
            +:+ "Maximum possible result found!" +:+ endl
            +:+ "[Coin(v=200, w=66), Coin(v=200, w=66), Coin(v=200, w=66), "
            +:+ "Coin(v=200, w=66), Coin(v=5, w=28), Coin(v=0, w=0), ]" +:+ endl
            +:+ "Total value: 805" +:+ endl
            +:+ "Total weight: 292" +:+ endl, 0)).
Proof.
  set (sorted := [mkCoin 200 66; mkCoin 100 90; mkCoin 50 155; mkCoin 10 56;
                  mkCoin 5 28; mkCoin 20 113; mkCoin 2 52; mkCoin 1 26]).
  assert (std_sort density_ge coin_options = Ret sorted) as Hsorted
    by (vm_compute; reflexivity).
  assert (Forall supported sorted) as Hsup by repeat constructor.
  assert (length sorted <= 16)%nat as Hlen by (simpl; lia).
  assert (supported root) as Hroot by repeat constructor.
  assert (find_best_combination_uncached 13 root maximum_weight sorted
          = Ret (Some [mkCoin 200 66; mkCoin 200 66; mkCoin 200 66;
                       mkCoin 200 66; mkCoin 5 28; root])) as H13.
  { rewrite (without_cache_supported _ 13 Hsup root _ Hroot).
    vm_compute. reflexivity. }
  assert (find_best_combination_uncached 12 root maximum_weight sorted = NoFuel)
    as H12.
  { rewrite (without_cache_supported _ 12 Hsup root _ Hroot).
    vm_compute. reflexivity. }
  split.
  - intros fuel Hfuel. unfold main, program. rewrite Hsorted. cbn [obind].
    rewrite run_uncached.
    pose proof (uncached_no_exception _ Hsup fuel root maximum_weight Hroot)
      as Hno1.
    pose proof (uncached_defined _ Hlen fuel root maximum_weight) as Hno2.
    destruct (find_best_combination_uncached fuel root maximum_weight sorted)
      as [res| | |] eqn:E; [|congruence|congruence|reflexivity].
    apply (uncached_fuel_le _ fuel 12) in E; [|lia]. congruence.
  - intros fuel Hfuel. unfold main, program. rewrite Hsorted. cbn [obind].
    rewrite run_uncached.
    rewrite (uncached_fuel_le _ 13 fuel _ _ _ Hfuel H13).
    vm_compute. reflexivity.
Qed.

(** ** The comparators *)

Lemma round_ratio_int_pos (a : Z) : 0 < a -> 0 < (round_ratio a 1).1.
Proof.
  clear ulong_overflow.
  intros Ha. unfold round_ratio.
  change (Z.log2 1) with 0. rewrite Z.sub_0_r.
  pose proof (Z.log2_nonneg a) as Hk.
  destruct (Z.log2_spec a Ha) as [Hlow _].
  rewrite (Z.max_r 0 (Z.log2 a)) by lia. rewrite (Z.max_l 0 (- Z.log2 a)) by lia.
  rewrite Z.pow_0_r, Z.mul_1_l, Z.mul_1_r.
  destruct (2 ^ Z.log2 a <=? a) eqn:E; [|apply Z.leb_gt in E; lia].
  set (e := Z.log2 a - 23).
  set (num := a * 2 ^ Z.max 0 (- e)). set (den := 1 * 2 ^ Z.max 0 e).
  assert (0 < den) as Hden
    by (unfold den; rewrite Z.mul_1_l; apply Z.pow_pos_nonneg; lia).
  assert (den <= num) as Hle.
  { unfold num, den. rewrite Z.mul_1_l.
    destruct (Z.le_gt_cases e 0) as [He|He].
    - rewrite (Z.max_l 0 e), (Z.max_r 0 (- e)) by lia. rewrite Z.pow_0_r.
      assert (0 < 2 ^ (- e)) by (apply Z.pow_pos_nonneg; lia). nia.
    - rewrite (Z.max_r 0 e), (Z.max_l 0 (- e)) by lia.
      rewrite Z.pow_0_r, Z.mul_1_r.
      assert (2 ^ e <= 2 ^ Z.log2 a) by (apply Z.pow_le_mono_r; lia). lia. }
  assert (1 <= num / den) as Hq by (apply Z.div_le_lower_bound; lia).
  simpl. repeat case_match; lia.
Qed.

(** An [int] converts to a finite [float], zero only for 0. *)
Lemma float_of_int_finite (z : Z) :
  exists m e, float_of_int z = float_finite m e /\ (m = 0 <-> z = 0).
Proof.
  clear ulong_overflow.
  unfold float_of_int. destruct (z =? 0) eqn:E.
  - apply Z.eqb_eq in E. exists 0, 0. split; [reflexivity|]. split; auto.
  - apply Z.eqb_neq in E.
    pose proof (round_ratio_int_pos (Z.abs z) ltac:(lia)) as Hm.
    destruct (round_ratio (Z.abs z) 1) as [m e]. simpl in Hm.
    exists (Z.sgn z * m), e. split; [reflexivity|]. split; [|contradiction].
    intros H.
    destruct (Z.sgn_spec z) as [[? Hs]|[[? Hs]|[? Hs]]]; rewrite Hs in H; lia.
Qed.

Lemma float_ge_refl (x : float) : float_ge x x = true <-> x <> float_nan.
Proof.
  clear ulong_overflow.
  destruct x as [|negative|m e]; simpl.
  - split; [discriminate|congruence].
  - split; [discriminate|]. intros _. destruct negative; reflexivity.
  - split; [discriminate|]. intros _. apply Z.leb_refl.
Qed.

(** X17.  Neither comparator handed to [std::sort] is irreflexive: the one
    of [best_value] holds between every pair and itself, and the density
    comparator of [main] holds between every coin and itself, but for a
    coin of value 0 and weight 0, whose density is a NaN. *)
Theorem comparators_hold_on_equal_keys :
  (forall val_comb, value_ge val_comb val_comb = true) /\
  (forall c, density_ge c c = true <-> ~ (value c = 0 /\ weight c = 0)).
Proof.
  clear ulong_overflow.
  split; [intros p; apply Z.leb_refl|].
  intros c. unfold density_ge. rewrite float_ge_refl.
  destruct (float_of_int_finite (value c)) as (m1 & e1 & -> & H1).
  destruct (float_of_int_finite (weight c)) as (m2 & e2 & -> & H2).
  simpl. destruct (m2 =? 0) eqn:E2.
  - apply Z.eqb_eq in E2. destruct (m1 =? 0) eqn:E1.
    + apply Z.eqb_eq in E1. split; [congruence|]. intros H. destruct H. tauto.
    + apply Z.eqb_neq in E1. split; [|discriminate]. intros _ [Hv _]. tauto.
  - apply Z.eqb_neq in E2. destruct (m1 =? 0) eqn:E1.
    + split; [|discriminate]. intros _ [_ Hw]. tauto.
    + destruct (round_ratio (Z.abs m1 * 2 ^ Z.max 0 (e1 - e2))
                            (Z.abs m2 * 2 ^ Z.max 0 (- (e1 - e2)))).
      split; [|discriminate]. intros _ [_ Hw]. tauto.
Qed.

(** ** [main] on a denomination [hash] does not know *)

(** X18.  With a maximum weight above 0 and at most 16 coin options, of
    positive weights, one option of a denomination [hash] does not know
    makes [main] end in the [std::out_of_range] exception, which it does
    not catch. *)
Theorem program_unknown_denomination (fuel : nat) (maximum_weight : Z)
    (coin_options : Coins) (c : Coin) :
  c ∈ coin_options -> ~ supported c ->
  Forall (fun c => 0 < weight c) coin_options ->
  (length coin_options <= 16)%nat ->
  0 < maximum_weight ->
  (Z.to_nat maximum_weight < fuel)%nat ->
  program fuel maximum_weight coin_options = OutOfRange.
Proof.
  intros Hc Hunknown Hpos Hlen Hbudget Hfuel. unfold program.
  rewrite std_sort_short by exact Hlen. cbn [obind]. rewrite run_uncached.
  pose proof (unsupported_never_returns (insertion_sort density_ge coin_options) c
                root maximum_weight
                ltac:(apply sorted_catalog_coins, Hc) Hunknown Hbudget fuel)
    as Hnever.
  pose proof (uncached_defined (insertion_sort density_ge coin_options)
                ltac:(rewrite sorted_catalog_length; exact Hlen) fuel
                root maximum_weight) as Hdefined.
  destruct fuel as [|fuel]; [lia|].
  pose proof (uncached_depth (insertion_sort density_ge coin_options)
                (sorted_catalog_Forall _ _ Hpos) fuel root maximum_weight
                ltac:(simpl; lia)) as Hdepth.
  destruct (find_best_combination_uncached (S fuel) root maximum_weight
              (insertion_sort density_ge coin_options)) as [res| | |];
    [|reflexivity|congruence|congruence].
  destruct Hnever. exists res. reflexivity.
Qed.

(** ** Nothing to choose from *)

Lemma none_results (search : Coin -> outcome (option Coins)) (l : Coins) :
  (forall c, c ∈ l -> search c = Ret None) ->
  Forall2 (fun c result => search c = Ret result) l ((fun _ => None) <$> l) /\
  omap id ((fun _ : Coin => @None Coins) <$> l) = [].
Proof.
  induction l as [|c l IH]; intros Hcall; simpl.
  - split; [constructor|reflexivity].
  - destruct IH as [IH1 IH2]; [intros c' Hc'; apply Hcall; right; exact Hc'|].
    split; [|exact IH2]. constructor; [apply Hcall; left|exact IH1].
Qed.

(** X19.  When every coin option is heavier than the maximum weight, the
    search returns the root coin alone: [main] then reports a total value
    and a total weight of 0. *)
Theorem nothing_fits (fuel : nat) (budget : Z) (options : Coins) :
  Forall supported options ->
  Forall (fun c => budget < weight c) options ->
  0 <= budget ->
  run (S (S fuel)) root budget options = Ret (Some [root]) /\
  printed_totals [root] = (0, 0).
Proof.
  intros Hsup Hheavy Hbudget. split; [|reflexivity].
  rewrite run_uncached. apply uncached_step. split; [repeat constructor|].
  destruct (Z.eq_dec budget 0) as [->|Hne]; [right; left; auto|].
  right. right. split; [simpl; lia|].
  exists ((fun _ => None) <$> options).
  pose proof (int_wrap_le (budget - weight root) ltac:(simpl; lia)) as Hwrap.
  fold (int_sub budget (weight root)) in Hwrap.
  change (budget - weight root) with (budget - 0) in Hwrap.
  destruct (none_results
              (fun c => find_best_combination_uncached (S fuel) c
                          (int_sub budget (weight root)) options)
              options) as [HF Hnil].
  { intros c Hc. rewrite Forall_forall in Hsup, Hheavy.
    apply uncached_step. split; [apply Hsup, Hc|]. left.
    specialize (Hheavy c Hc). simpl in Hheavy. split; [lia|reflexivity]. }
  split; [exact HF|]. left. split; [exact Hnil|reflexivity].
Qed.

(** X20.  With no coin option at all and a maximum weight that is not
    negative, [main] writes an empty list of options, the root coin as the
    result and totals of 0, and exits with status 0. *)
Theorem program_no_options (fuel : nat) (maximum_weight : Z) :
  0 <= maximum_weight ->
  program (S fuel) maximum_weight []
  = Ret ("Coins ordered by most valuable first:" +:+ endl
         +:+ "[]" +:+ endl
         +:+ "Maximum possible result found!" +:+ endl
         +:+ "[Coin(v=0, w=0), ]" +:+ endl
         +:+ "Total value: 0" +:+ endl
         +:+ "Total weight: 0" +:+ endl, 0).
Proof.
  intros Hbudget. unfold program.
  change (std_sort density_ge []) with (Ret (@nil Coin)). cbn [obind].
  assert (run (S fuel) root maximum_weight [] = Ret (Some [root])) as ->;
    [|vm_compute; reflexivity].
  rewrite run_uncached. apply uncached_step. split; [repeat constructor|].
  destruct (Z.eq_dec maximum_weight 0) as [->|Hne]; [right; left; auto|].
  right. right. split; [simpl; lia|].
  exists []. split; [constructor|]. left. split; reflexivity.
Qed.

End Search.

(** * Concrete instances *)

(** The scenarios of the specification: a single coin that fits exactly, a
    budget of zero, and a catalog too heavy for the budget.  The null coin
    ends every result; [main] pops it before it prints the totals. *)
Example hash_of_the_catalog :
  map hash (root :: coin_options)
  = [Ret 0; Ret 2; Ret 3; Ret 5; Ret 7; Ret 11; Ret 13; Ret 17; Ret 19].
Proof. vm_compute. reflexivity. Qed.

Example single_coin_perfect_fit :
  run zero_on_overflow 3 root 10 [mkCoin 5 10] = Ret (Some [mkCoin 5 10; root]).
Proof. vm_compute. reflexivity. Qed.

Example budget_zero :
  run zero_on_overflow 3 root 0 coin_options = Ret (Some [root]).
Proof. vm_compute. reflexivity. Qed.

Example every_coin_too_heavy :
  run zero_on_overflow 3 root 20 coin_options = Ret (Some [root]).
Proof. vm_compute. reflexivity. Qed.

Example under_filled_budget :
  run zero_on_overflow 5 root 100 [mkCoin 1 26; mkCoin 5 28]
  = Ret (Some [mkCoin 5 28; mkCoin 5 28; mkCoin 5 28; root]).
Proof. vm_compute. reflexivity. Qed.

Example zero_weight_coin_runs_out_of_fuel :
  run zero_on_overflow 50 root 1 [mkCoin 1 0] = NoFuel.
Proof. vm_compute. reflexivity. Qed.

(** The [int] arithmetic at its limits.  With a coin of weight -2^30 the
    third subtraction of the remaining weight, [1073741825 - (-1073741824)],
    wraps to a negative number and ends the recursion at depth 4; one unit
    of budget more can wrap the remaining weight of the first call and lose
    the coin the smaller budget affords. *)
Example negative_weight_wraps :
  int_sub 1073741825 (-1073741824) = -2147483647 /\
  run zero_on_overflow 4 root 1 [mkCoin 1 (-1073741824)]
  = Ret (Some [mkCoin 1 (-1073741824); mkCoin 1 (-1073741824); root]).
Proof. split; vm_compute; reflexivity. Qed.

Example remaining_weight_wraps :
  run zero_on_overflow 3 (mkCoin 0 (-2147483647)) 0 [mkCoin 200 1073741824]
  = Ret (Some [mkCoin 200 1073741824; mkCoin 0 (-2147483647)]) /\
  run zero_on_overflow 3 (mkCoin 0 (-2147483647)) 1 [mkCoin 200 1073741824]
  = Ret (Some [mkCoin 0 (-2147483647)]).
Proof. split; vm_compute; reflexivity. Qed.

(** Seventeen candidates are more than the insertion sort of [std::sort]
    takes. *)
Example seventeen_candidates :
  best_value (replicate 16 [mkCoin 5 1]) = Ret [mkCoin 5 1] /\
  best_value (replicate 17 [mkCoin 5 1]) = Undefined.
Proof. split; vm_compute; reflexivity. Qed.

(** C1 as the specification words it fails on a coin [hash] does not
    know: [Coin(3, 5)] is heavier than a remaining weight of 1, and the
    call throws instead of returning no combination. *)
Lemma unknown_coin_throws_when_overweight :
  weight (mkCoin 3 5) > 1 /\
  run zero_on_overflow 1 (mkCoin 3 5) 1 [] = OutOfRange /\
  ~ (exists fuel, run zero_on_overflow fuel (mkCoin 3 5) 1 [] = Ret None).
Proof.
  split; [reflexivity|]. split; [reflexivity|].
  intros [fuel H]. rewrite run_uncached in H.
  destruct fuel as [|fuel]; [discriminate|].
  apply uncached_step in H as [Hs _].
  revert Hs. unfold supported. compute_done.
Qed.

Lemma search_three_case_contract_witness :
  exists result,
    search_contract [mkCoin 5 10] root 10 result /\
    forall fuel, (Z.to_nat (10 - weight root) < fuel)%nat ->
      find_best_combination zero_on_overflow fuel root 10 [mkCoin 5 10] ∅
      = (Ret result, ∅).
Proof.
  apply (search_three_case_contract zero_on_overflow [mkCoin 5 10] root 10).
  - repeat constructor.
  - repeat constructor.
  - repeat constructor.
  - simpl. lia.
  - simpl. lia.
Defined.

(** C2 as the specification words it fails on a feasible pair whose coin
    [hash] does not know: [Coin(3, 1)] fits a remaining weight of 1, and
    the call throws: no combination is returned, whatever the fuel. *)
Lemma feasible_unknown_coin_throws :
  weight (mkCoin 3 1) <= 1 /\
  run zero_on_overflow 1 (mkCoin 3 1) 1 [] = OutOfRange /\
  ~ (exists fuel combination,
       run zero_on_overflow fuel (mkCoin 3 1) 1 [] = Ret (Some combination)).
Proof.
  split; [simpl; lia|]. split; [reflexivity|].
  intros (fuel & combination & H). rewrite run_uncached in H.
  destruct fuel as [|fuel]; [discriminate|].
  apply uncached_step in H as [Hs _].
  revert Hs. unfold supported. compute_done.
Qed.

Lemma returned_combination_fits_witness :
  (forall fuel combination,
     run zero_on_overflow fuel root 10 [mkCoin 5 10] = Ret (Some combination) ->
     sum_weights combination <= 10) /\
  exists combination,
    sum_weights combination <= 10 /\
    forall fuel, (Z.to_nat (10 - weight root) < fuel)%nat ->
      run zero_on_overflow fuel root 10 [mkCoin 5 10] = Ret (Some combination).
Proof.
  destruct (returned_combination_fits zero_on_overflow [mkCoin 5 10] root 10)
    as [Hfits Hreturns]; [simpl; lia|].
  split; [exact Hfits|]. apply Hreturns.
  - repeat constructor.
  - repeat constructor.
  - repeat constructor.
  - simpl. lia.
Defined.

Lemma cache_is_pure_memoization_witness :
  run zero_on_overflow 5 root 60 [mkCoin 5 28; mkCoin 1 26]
  = find_best_combination_without_cache 5 root 60 [mkCoin 5 28; mkCoin 1 26].
Proof.
  apply (cache_is_pure_memoization zero_on_overflow 5 root 60
           [mkCoin 5 28; mkCoin 1 26]); repeat constructor.
Defined.

(** C5 as the specification words it fails when a total value does not
    fit an [int]: the first candidate is worth 2^31, its [int] total wraps
    to -2^31, and [best_value] returns the second candidate, worth 0. *)
Lemma best_value_overflow_prefers_smaller :
  best_value [[mkCoin 2147483647 1; mkCoin 1 1]; [mkCoin 0 1]]
  = Ret [mkCoin 0 1] /\
  [mkCoin 2147483647 1; mkCoin 1 1]
    ∈ [[mkCoin 2147483647 1; mkCoin 1 1]; [mkCoin 0 1]] /\
  sum_values [mkCoin 0 1] < sum_values [mkCoin 2147483647 1; mkCoin 1 1].
Proof.
  split; [vm_compute; reflexivity|]. split; [left|]. simpl. lia.
Qed.

Lemma best_value_is_maximum_witness :
  exists best,
    best_value [[mkCoin 5 28]; [mkCoin 200 66; mkCoin 1 26]] = Ret best /\
    best ∈ [[mkCoin 5 28]; [mkCoin 200 66; mkCoin 1 26]] /\
    forall c, c ∈ [[mkCoin 5 28]; [mkCoin 200 66; mkCoin 1 26]] ->
              sum_values c <= sum_values best.
Proof.
  apply (best_value_is_maximum [[mkCoin 5 28]; [mkCoin 200 66; mkCoin 1 26]]).
  - discriminate.
  - simpl. lia.
  - repeat constructor; simpl; lia.
Defined.

(** C6 as the specification words it fails on two candidates of equal
    total value: [best_value] returns the second, the first maximal
    candidate is the first. *)
Lemma best_value_not_first_maximal :
  best_value [[mkCoin 5 1]; [mkCoin 5 2]] = Ret [mkCoin 5 2] /\
  first_maximal [[mkCoin 5 1]; [mkCoin 5 2]] [mkCoin 5 1] /\
  ~ first_maximal [[mkCoin 5 1]; [mkCoin 5 2]] [mkCoin 5 2].
Proof.
  split; [vm_compute; reflexivity|]. split.
  - exists 0%nat. split; [reflexivity|]. split.
    + intros c Hc. repeat (apply elem_of_cons in Hc as [->|Hc]); [compute_done..|].
      inversion Hc.
    + intros j c Hj. lia.
  - intros (i & Hi & _ & Hearlier).
    destruct i as [|[|i]]; [discriminate| |discriminate].
    specialize (Hearlier 0%nat [mkCoin 5 1] ltac:(lia) eq_refl).
    revert Hearlier. compute_done.
Qed.

Lemma best_value_returns_a_maximal_candidate_witness :
  exists best,
    best_value [[mkCoin 5 1]; [mkCoin 5 2]] = Ret best /\
    maximal [[mkCoin 5 1]; [mkCoin 5 2]] best /\
    sum_values best = 5.
Proof.
  apply (best_value_returns_a_maximal_candidate [[mkCoin 5 1]; [mkCoin 5 2]] 5).
  - simpl. lia.
  - repeat constructor; simpl; lia.
  - exists [mkCoin 5 1]. split; [|reflexivity]. split; [left|].
    intros c Hc. repeat (apply elem_of_cons in Hc as [->|Hc]); [compute_done..|].
    inversion Hc.
Defined.

(** C8 as the specification words it fails on a catalog holding a coin
    [hash] does not know: on [Coin(3, 1), Coin(1, 1)] and on its
    permutation [Coin(1, 1), Coin(3, 1)], with a budget of 1, the search
    started with the null coin throws and returns no combination. *)
Lemma permuted_unknown_catalog_returns_nothing :
  [mkCoin 3 1; mkCoin 1 1] ≡ₚ [mkCoin 1 1; mkCoin 3 1] /\
  run zero_on_overflow 2 root 1 [mkCoin 3 1; mkCoin 1 1] = OutOfRange /\
  run zero_on_overflow 2 root 1 [mkCoin 1 1; mkCoin 3 1] = OutOfRange /\
  ~ (exists fuel combination,
       run zero_on_overflow fuel root 1 [mkCoin 3 1; mkCoin 1 1]
       = Ret (Some combination)) /\
  ~ (exists fuel combination,
       run zero_on_overflow fuel root 1 [mkCoin 1 1; mkCoin 3 1]
       = Ret (Some combination)).
Proof.
  assert (~ supported (mkCoin 3 1)) as H3 by (unfold supported; compute_done).
  split; [apply perm_swap|].
  split; [vm_compute; reflexivity|]. split; [vm_compute; reflexivity|].
  split; intros (fuel & combination & H); rewrite run_uncached in H.
  - eapply (unsupported_never_returns zero_on_overflow [mkCoin 3 1; mkCoin 1 1]
              (mkCoin 3 1) root 1);
      [repeat constructor|exact H3|reflexivity|eexists; exact H].
  - eapply (unsupported_never_returns zero_on_overflow [mkCoin 1 1; mkCoin 3 1]
              (mkCoin 3 1) root 1);
      [repeat constructor|exact H3|reflexivity|eexists; exact H].
Qed.

Lemma total_value_invariant_under_permutation_witness :
  (forall fuel,
     value_of (run zero_on_overflow fuel root 60 [mkCoin 5 28; mkCoin 1 26])
     = value_of (run zero_on_overflow fuel root 60 [mkCoin 1 26; mkCoin 5 28])) /\
  exists combination combination',
    sum_values combination = sum_values combination' /\
    forall fuel, (Z.to_nat 60 < fuel)%nat ->
      run zero_on_overflow fuel root 60 [mkCoin 5 28; mkCoin 1 26]
      = Ret (Some combination) /\
      run zero_on_overflow fuel root 60 [mkCoin 1 26; mkCoin 5 28]
      = Ret (Some combination').
Proof.
  destruct (total_value_invariant_under_permutation zero_on_overflow
              [mkCoin 5 28; mkCoin 1 26] [mkCoin 1 26; mkCoin 5 28] 60)
    as [Hsame Hreturn]; [apply perm_swap|simpl; lia|].
  split; [exact Hsame|]. apply Hreturn.
  - repeat constructor.
  - repeat constructor.
  - lia.
  - lia.
Defined.

(** C9 as the specification words it fails on a catalog holding a coin
    [hash] does not know: with the catalog [Coin(3, 1)] and a budget of 1
    the call of [main] throws [out_of_range] and returns no combination,
    whatever the fuel. *)
Lemma unknown_denomination_stops_main :
  0 <= 1 /\
  run zero_on_overflow 2 root 1 [mkCoin 3 1] = OutOfRange /\
  ~ (exists fuel combination,
       run zero_on_overflow fuel root 1 [mkCoin 3 1] = Ret (Some combination)).
Proof.
  split; [lia|]. split; [vm_compute; reflexivity|].
  intros (fuel & combination & H). rewrite run_uncached in H.
  eapply (unsupported_never_returns zero_on_overflow [mkCoin 3 1] (mkCoin 3 1)
            root 1); [repeat constructor| |reflexivity|eexists; exact H].
  unfold supported. compute_done.
Qed.

Lemma none_exactly_when_overweight_witness :
  (forall coin remaining_weight,
     supported coin ->
     exists result,
       (forall fuel, (Z.to_nat (remaining_weight - weight coin) < fuel)%nat ->
          run zero_on_overflow fuel coin remaining_weight [mkCoin 5 10]
          = Ret result) /\
       (result = None <-> weight coin > remaining_weight)) /\
  (forall budget,
     0 <= budget ->
     exists combination,
       forall fuel, (Z.to_nat budget < fuel)%nat ->
         run zero_on_overflow fuel root budget [mkCoin 5 10]
         = Ret (Some combination)) /\
  (forall fuel coin remaining_weight,
     ~ supported coin ->
     run zero_on_overflow (S fuel) coin remaining_weight [mkCoin 5 10]
     = OutOfRange).
Proof.
  apply (none_exactly_when_overweight zero_on_overflow [mkCoin 5 10]).
  - repeat constructor.
  - repeat constructor.
  - simpl. lia.
Defined.

Lemma hash_is_partial_witness :
  hash (mkCoin 3 1) = OutOfRange /\
  find_best_combination zero_on_overflow 1 (mkCoin 3 1) 1 [] ∅ = (OutOfRange, ∅) /\
  ~ returns (run zero_on_overflow 5 root 1 [mkCoin 3 1]).
Proof.
  destruct (hash_is_partial zero_on_overflow) as (_ & Hthrows & Hcall & Hstops).
  assert (value (mkCoin 3 1) ∉ denominations) as H3 by compute_done.
  split; [apply Hthrows, H3|].
  split; [apply Hcall, H3|].
  apply (Hstops 5%nat root 1 [mkCoin 3 1] (mkCoin 3 1));
    [repeat constructor|exact H3|reflexivity].
Defined.

(** Instances of the further theorems. *)

Lemma search_returns_maximum_value_witness :
  exists coins,
    Forall (fun c => c ∈ [mkCoin 5 28; mkCoin 1 26]) coins /\
    sum_weights coins <= 60 /\
    (forall fuel, (Z.to_nat 60 < fuel)%nat ->
       run zero_on_overflow fuel root 60 [mkCoin 5 28; mkCoin 1 26]
       = Ret (Some (coins ++ [root]))) /\
    forall l, Forall (fun c => c ∈ [mkCoin 5 28; mkCoin 1 26]) l ->
              sum_weights l <= 60 ->
              sum_values l <= sum_values coins.
Proof.
  apply (search_returns_maximum_value zero_on_overflow
           [mkCoin 5 28; mkCoin 1 26] 60).
  - repeat constructor.
  - repeat constructor.
  - simpl. lia.
  - lia.
  - lia.
Defined.

Lemma returned_combination_shape_witness :
  exists coins,
    [mkCoin 5 10; root] = coins ++ [root] /\
    pop_back [mkCoin 5 10; root] = coins /\
    Forall (fun c => c ∈ [mkCoin 5 10]) coins.
Proof.
  apply (returned_combination_shape zero_on_overflow 3 root 10 [mkCoin 5 10]).
  vm_compute. reflexivity.
Defined.

Lemma recursion_depth_bounded_witness :
  run zero_on_overflow 3 root 2 [mkCoin 3 1] <> NoFuel.
Proof.
  apply (recursion_depth_bounded zero_on_overflow [mkCoin 3 1] root 2 3).
  - repeat constructor.
  - simpl. lia.
Defined.

Lemma zero_weight_recurses_forever_witness :
  run zero_on_overflow 7 root 1 [mkCoin 1 0] = NoFuel.
Proof.
  apply (zero_weight_recurses_forever zero_on_overflow [mkCoin 1 0]
           (mkCoin 1 0) root 1 7).
  - repeat constructor.
  - repeat constructor.
  - repeat constructor. simpl. lia.
  - repeat constructor.
  - reflexivity.
  - simpl. lia.
  - simpl. lia.
  - lia.
Defined.

Lemma value_grows_with_budget_and_catalog_witness :
  sum_values [mkCoin 5 10; root] <= sum_values [mkCoin 5 10; mkCoin 5 10; root].
Proof.
  apply (value_grows_with_budget_and_catalog zero_on_overflow
           [mkCoin 5 10] [mkCoin 5 10] root 10 20 3 4).
  - repeat constructor.
  - repeat constructor.
  - auto.
  - lia.
  - simpl. lia.
  - vm_compute. reflexivity.
  - vm_compute. reflexivity.
Defined.

Lemma hash_coins_defined_witness :
  (exists h, hash_coins [mkCoin 1 26; mkCoin 200 66] = Ret h /\
             0 <= h < 2 ^ 64 /\
             h <= 19 * Z.of_nat (length [mkCoin 1 26; mkCoin 200 66])) /\
  hash_coins [mkCoin 1 26; mkCoin 3 1] = OutOfRange.
Proof.
  split.
  - apply (hash_coins_defined zero_on_overflow [mkCoin 1 26; mkCoin 200 66]).
    repeat constructor.
  - apply (hash_coins_defined zero_on_overflow [mkCoin 1 26; mkCoin 3 1]).
    intros H. apply Forall_cons in H as [_ H]. apply Forall_cons in H as [H _].
    revert H. unfold supported. compute_done.
Defined.

Lemma hash_coins_permutation_witness :
  hash_coins [mkCoin 1 26; mkCoin 200 66] = hash_coins [mkCoin 200 66; mkCoin 1 26].
Proof.
  apply (hash_coins_permutation [mkCoin 1 26; mkCoin 200 66]
           [mkCoin 200 66; mkCoin 1 26]).
  apply perm_swap.
Defined.

Lemma hash_coins_app_witness :
  hash_coins ([mkCoin 1 26] ++ [mkCoin 200 66]) = Ret ((2 + 19) mod 2 ^ 64).
Proof.
  apply (hash_coins_app [mkCoin 1 26] [mkCoin 200 66] 2 19); reflexivity.
Defined.

Lemma best_value_sort_descending_witness :
  exists sorted,
    std_sort value_ge [(5, [mkCoin 5 28]); (201, [mkCoin 200 66; mkCoin 1 26])]
    = Ret sorted /\
    sorted ≡ₚ [(5, [mkCoin 5 28]); (201, [mkCoin 200 66; mkCoin 1 26])] /\
    StronglySorted (fun p q => q.1 <= p.1) sorted.
Proof.
  apply (best_value_sort_descending
           [(5, [mkCoin 5 28]); (201, [mkCoin 200 66; mkCoin 1 26])]).
  simpl. lia.
Defined.

Lemma program_negative_budget_witness :
  program zero_on_overflow 1 (-1) [mkCoin 5 10]
  = Ret ("Coins ordered by most valuable first:" +:+ endl
         +:+ print_coins "" (insertion_sort density_ge [mkCoin 5 10]) +:+ endl
         +:+ "No result found :(" +:+ endl, 1).
Proof.
  apply (program_negative_budget zero_on_overflow 0 (-1) [mkCoin 5 10]).
  - simpl. lia.
  - lia.
Defined.

Lemma program_reports_maximum_witness :
  exists coins out,
    Forall (fun c => c ∈ [mkCoin 5 28; mkCoin 1 26]) coins /\
    sum_weights coins <= 60 /\
    (forall l, Forall (fun c => c ∈ [mkCoin 5 28; mkCoin 1 26]) l ->
               sum_weights l <= 60 ->
               sum_values l <= sum_values coins) /\
    forall fuel, (Z.to_nat 60 < fuel)%nat ->
      program zero_on_overflow fuel 60 [mkCoin 5 28; mkCoin 1 26]
      = Ret (out +:+ "Total value: " +:+ pretty (sum_values coins) +:+ endl
                 +:+ "Total weight: " +:+ pretty (sum_weights coins) +:+ endl,
             0).
Proof.
  apply (program_reports_maximum zero_on_overflow 60 [mkCoin 5 28; mkCoin 1 26]).
  - repeat constructor.
  - repeat constructor.
  - simpl. lia.
  - lia.
  - lia.
Defined.

Lemma program_unknown_denomination_witness :
  program zero_on_overflow 2 1 [mkCoin 3 1] = OutOfRange.
Proof.
  apply (program_unknown_denomination zero_on_overflow 2 1 [mkCoin 3 1]
           (mkCoin 3 1)).
  - repeat constructor.
  - unfold supported. compute_done.
  - repeat constructor.
  - simpl. lia.
  - lia.
  - simpl. lia.
Defined.

Lemma nothing_fits_witness :
  run zero_on_overflow 2 root 20 coin_options = Ret (Some [root]) /\
  printed_totals [root] = (0, 0).
Proof.
  apply (nothing_fits zero_on_overflow 0 20 coin_options).
  - repeat constructor.
  - repeat constructor.
  - lia.
Defined.

Lemma program_no_options_witness :
  program zero_on_overflow 1 300 []
  = Ret ("Coins ordered by most valuable first:" +:+ endl
         +:+ "[]" +:+ endl
         +:+ "Maximum possible result found!" +:+ endl
         +:+ "[Coin(v=0, w=0), ]" +:+ endl
         +:+ "Total value: 0" +:+ endl
         +:+ "Total weight: 0" +:+ endl, 0).
Proof. apply (program_no_options zero_on_overflow 0 300). lia. Defined.
